(** * fastestimator.util.traceability_util

    A shallow embedding of the traceability utilities: the reverse stack
    machine [_parse_instructions] which turns the bytecode of a lambda into
    an expression value, the renderer [_trace_value], and the class
    decorator [traceable] with the [init], [fe_summary] and [fe_state]
    functions it installs. *)

From stdpp Require Import gmap strings list pretty.

Local Open Scope Z_scope.

(** ** Python values *)

(** The values which flow through the module.  [VCommand], [VCondition],
    [VBoundFn] and [VVarWrap] are the four namedtuples of the module;
    [VBoundArguments] is [inspect.BoundArguments]; a lambda carries what
    [dis.get_instructions] and [inspect.getclosurevars] report for it.  A
    function carries its parameters as its [def] writes them, each with its
    default if it has one: a name which begins with one or with two stars is
    the parameter which takes the positional or the keyword arguments that
    are left. *)
Unset Elimination Schemes.
Inductive value : Type :=
| VNone
| VBool (b : bool)
| VInt (n : Z)
| VFloat (repr : string)
| VStr (s : string)
| VList (xs : list value)
| VTuple (xs : list value)
| VSet (xs : list value)
| VDict (items : list (value * value))
| VVarWrap (var : value)
| VCommand (left right : value) (command : string)
| VCondition (left right condition : value)
| VBoundFn (func args : value)
| VBoundArguments (arguments : list (string * value))
| VMethod (name : string) (self : value)
| VFunction (modname qualname : string) (params : list (string * option value))
| VClass (modname qualname : string)
| VLambda (co_varnames : list string) (code : list instruction)
          (scope : closure_vars)
| VModel (model_name : option value) (id : Z)
| VTensor (repr : string)
| VObject (obj : instance)
with instruction : Type :=
| Instruction (opname : string) (argval : value)
with closure_vars : Type :=
| ClosureVars (nonlocals globals builtins : list (string * value))
with instance : Type :=
| Instance (cls_modname cls_qualname : string) (cls_id : Z)
           (dict : list (string * value)).
Set Elimination Schemes.

Definition opname (i : instruction) : string :=
  match i with Instruction o _ => o end.
Definition argval (i : instruction) : value :=
  match i with Instruction _ a => a end.
Definition nonlocals (cv : closure_vars) : list (string * value) :=
  match cv with ClosureVars n _ _ => n end.
Definition globals (cv : closure_vars) : list (string * value) :=
  match cv with ClosureVars _ g _ => g end.
Definition builtins (cv : closure_vars) : list (string * value) :=
  match cv with ClosureVars _ _ b => b end.
Definition cls_modname (o : instance) : string :=
  match o with Instance m _ _ _ => m end.
Definition cls_qualname (o : instance) : string :=
  match o with Instance _ q _ _ => q end.
Definition cls_id (o : instance) : Z :=
  match o with Instance _ _ i _ => i end.
Definition __dict__ (o : instance) : list (string * value) :=
  match o with Instance _ _ _ d => d end.

(** ** Exceptions and results *)

Inductive exn : Type :=
| IndexError (msg : string)
| TypeError (msg : string)
| KeyError (key : string)
| AttributeError (name : string)
| ValueError (msg : string).

Inductive result (A : Type) : Type :=
| Ok (a : A)
| Raise (e : exn).
Arguments Ok {A} a.
Arguments Raise {A} e.

Definition is_ok {A} (r : result A) : bool :=
  match r with Ok _ => true | Raise _ => false end.

(** ** The Python runtime

    What the module asks of the interpreter and of [inspect] for objects it
    does not look into: hashing and equality of dictionary keys, the order
    in which a set is iterated (that of its hash table), truth value,
    iteration, [str()], attribute access and signature binding
    ([inspect.signature(f).bind] on positional and keyword arguments,
    followed by [apply_defaults]). *)
Record Runtime : Type := {
  rt_hashable : value -> bool;
  rt_eq : value -> value -> bool;
  rt_set_order : list value -> list value;
  rt_truthy : value -> bool;
  rt_callable : value -> bool;
  rt_iter : value -> option (list value);
  rt_reversed : value -> option (list value);
  rt_str : value -> string;
  rt_getattr : value -> value -> result value;
  rt_signature_bind :
    value -> list value -> list (value * value) -> result (list (string * value))
}.

(** ** Strings *)

Fixpoint drop_prefix (prefix target : string) : option string :=
  match prefix, target with
  | EmptyString, rest => Some rest
  | String a p, String b t => if Ascii.eqb a b then drop_prefix p t else None
  | String _ _, EmptyString => None
  end.

(** Modelled from the spec: [fastestimator.util.util.strip_prefix], which is
    imported by the module but whose source is not part of it.  It removes
    [prefix] from the front of [target] when it is there. *)
Definition strip_prefix (target prefix : string) : string :=
  match drop_prefix prefix target with
  | Some rest => rest
  | None => target
  end.

Definition startswith (s prefix : string) : bool :=
  match drop_prefix prefix s with Some _ => true | None => false end.

Fixpoint str_join (sep : string) (parts : list string) : string :=
  match parts with
  | [] => EmptyString
  | [p] => p
  | p :: rest => p +:+ sep +:+ str_join sep rest
  end.

Fixpoint chars (s : string) : list string :=
  match s with
  | EmptyString => []
  | String a rest => String a EmptyString :: chars rest
  end.

(** ** Lists with Python indexing *)

(** A Python index [i] into a list of length [n]: negative indices count from
    the end. *)
Definition py_index (n : nat) (i : Z) : option nat :=
  let j := if i <? 0 then i + Z.of_nat n else i in
  if (0 <=? j) && (j <? Z.of_nat n) then Some (Z.to_nat j) else None.

(** [l[i]] *)
Definition list_getitem {A} (l : list A) (i : Z) : result A :=
  match py_index (length l) i with
  | Some j =>
      match l !! j with
      | Some x => Ok x
      | None => Raise (IndexError "list index out of range")
      end
  | None => Raise (IndexError "list index out of range")
  end.

(** [l.pop(i)], keeping the list that remains *)
Definition list_pop_at {A} (l : list A) (i : Z) : result (list A) :=
  match l with
  | [] => Raise (IndexError "pop from empty list")
  | _ =>
      match py_index (length l) i with
      | Some j => Ok (delete j l)
      | None => Raise (IndexError "pop index out of range")
      end
  end.

(** [l.pop()]: the list that remains and the last element *)
Definition list_pop {A} (l : list A) : option (list A * A) :=
  match reverse l with
  | [] => None
  | x :: r => Some (reverse r, x)
  end.

(** ** Dictionaries and the Operator Table *)

Definition _CommandTable : gmap string string :=
  list_to_map
    [ ("POWER", "**"); ("MULTIPLY", "*"); ("MATRIX_MULTIPLY", "@");
      ("FLOOR_DIVIDE", "//"); ("TRUE_DIVIDE", "/"); ("MODULO", "%");
      ("ADD", "+"); ("SUBTRACT", "-"); ("SUBSCR", "[]"); ("LSHIFT", "<<");
      ("RSHIFT", ">>"); ("AND", "&"); ("XOR", "^"); ("OR", "|");
      (">", ">"); ("<", "<"); ("==", "=="); ("!=", "!="); ("<=", "<=");
      (">=", ">=") ].

Fixpoint assoc {V} (k : string) (d : list (string * V)) : option V :=
  match d with
  | [] => None
  | (k', v) :: rest => if String.eqb k k' then Some v else assoc k rest
  end.

Section WithRuntime.
Context (rt : Runtime).

(** [hash(v)] succeeds *)
Fixpoint hashable (v : value) : bool :=
  match v with
  | VNone | VBool _ | VInt _ | VFloat _ | VStr _ => true
  | VList _ | VSet _ | VDict _ | VBoundArguments _ => false
  | VTuple xs => forallb hashable xs
  | VVarWrap x => hashable x
  | VCommand l r _ => hashable l && hashable r
  | VCondition l r c => hashable l && hashable r && hashable c
  | VBoundFn f a => hashable f && hashable a
  | VFunction _ _ _ | VClass _ _ | VLambda _ _ _ => true
  | VMethod _ _ | VModel _ _ | VTensor _ | VObject _ => rt_hashable rt v
  end.

(** [hasattr(v, '__call__')] *)
Definition is_callable (v : value) : bool :=
  match v with
  | VFunction _ _ _ | VClass _ _ | VLambda _ _ _ | VMethod _ _ | VModel _ _ => true
  | VTensor _ | VObject _ => rt_callable rt v
  | _ => false
  end.

(** [bool(v)] *)
Definition truthy (v : value) : bool :=
  match v with
  | VNone => false
  | VBool b => b
  | VInt n => negb (n =? 0)
  | VStr s => negb (String.eqb s EmptyString)
  | VList xs | VTuple xs | VSet xs => negb (bool_decide (length xs = 0%nat))
  | VDict items => negb (bool_decide (length items = 0%nat))
  | VVarWrap _ | VCommand _ _ _ | VCondition _ _ _ | VBoundFn _ _ => true
  | VFunction _ _ _ | VClass _ _ | VLambda _ _ _ | VMethod _ _ => true
  | _ => rt_truthy rt v
  end.

(** [iter(v)], as the list of the elements it yields *)
Definition py_iter (v : value) : result (list value) :=
  match v with
  | VList xs | VTuple xs | VSet xs => Ok xs
  | VDict items => Ok (map fst items)
  | VStr s => Ok (map VStr (chars s))
  | VVarWrap x => Ok [x]
  | VCommand l r c => Ok [l; r; VStr c]
  | VCondition l r c => Ok [l; r; c]
  | VBoundFn f a => Ok [f; a]
  | _ =>
      match rt_iter rt v with
      | Some xs => Ok xs
      | None => Raise (TypeError "object is not iterable")
      end
  end.

(** [reversed(v)] *)
Definition py_reversed (v : value) : result (list value) :=
  match v with
  | VList xs | VTuple xs => Ok (rev xs)
  | VStr s => Ok (rev (map VStr (chars s)))
  | VVarWrap x => Ok [x]
  | VCommand l r c => Ok [VStr c; r; l]
  | VCondition l r c => Ok [c; r; l]
  | VBoundFn f a => Ok [a; f]
  | _ =>
      match rt_reversed rt v with
      | Some xs => Ok xs
      | None => Raise (TypeError "object is not reversible")
      end
  end.

(** [range(v)], as the number of iterations *)
Definition py_range (v : value) : result nat :=
  match v with
  | VInt n => Ok (Z.to_nat n)
  | VBool b => Ok (if b then 1%nat else 0%nat)
  | _ => Raise (TypeError "object cannot be interpreted as an integer")
  end.

(** [str(v)], as used by [format] and f-strings *)
Definition py_str (v : value) : string :=
  match v with
  | VStr s => s
  | VNone => "None"
  | VBool b => if b then "True" else "False"
  | VInt n => pretty n
  | VFloat r => r
  | VTensor r => r
  | _ => rt_str rt v
  end.

(** [d.get(key, default)] on a dictionary whose keys are strings *)
Definition dict_get (d : list (string * value)) (key default : value) : result value :=
  if hashable key then
    match key with
    | VStr s => Ok (match assoc s d with Some v => v | None => default end)
    | _ => Ok default
    end
  else Raise (TypeError "unhashable type").

(** [d[k] = v] on an insertion-ordered dictionary *)
Fixpoint dict_replace (d : list (value * value)) (k v : value) : option (list (value * value)) :=
  match d with
  | [] => None
  | (k', v') :: rest =>
      if rt_eq rt k' k then Some ((k', v) :: rest)
      else match dict_replace rest k v with
           | Some rest' => Some ((k', v') :: rest')
           | None => None
           end
  end.

Definition dict_setitem (d : list (value * value)) (k v : value) : result (list (value * value)) :=
  if hashable k then
    match dict_replace d k v with
    | Some d' => Ok d'
    | None => Ok (d ++ [(k, v)])
    end
  else Raise (TypeError "unhashable type").

(** [{key: val for key, val in pairs}] *)
Fixpoint dict_of_pairs (acc : list (value * value)) (pairs : list (value * value)) : result (list (value * value)) :=
  match pairs with
  | [] => Ok acc
  | (k, v) :: rest =>
      match dict_setitem acc k v with
      | Ok acc' => dict_of_pairs acc' rest
      | Raise e => Raise e
      end
  end.

(** [set(xs)]: of equal elements the first is kept; the set is held as the
    list of its elements in the order in which it is iterated, which is that
    of its hash table and not that of the insertions. *)
Definition py_set (xs : list value) : result value :=
  if forallb hashable xs then
    Ok (VSet (rt_set_order rt
                (fold_left (fun acc x => if existsb (rt_eq rt x) acc then acc else acc ++ [x])
                   xs [])))
  else Raise (TypeError "unhashable type").

(** [command in _CommandTable], with the symbol when it is there *)
Definition table_lookup (command : value) : result (option string) :=
  if hashable command then
    match command with
    | VStr s => Ok (_CommandTable !! s)
    | _ => Ok None
    end
  else Raise (TypeError "unhashable type").

End WithRuntime.

(** ** The reverse stack machine

    The local variables of [_parse_instructions] which outlive one pass of
    its loop: the working copy of the instruction list, the pending
    ternaries, the operand stack and the walk index.  The two Python lists
    [conditions] and [args] grow and shrink at their end. *)
Record pending : Type := Pending {
  p_left : value;
  p_right : value;
  p_condition : value
}.

Record machine : Type := Machine {
  instructions : list instruction;
  conditions : list pending;
  args : list value;
  idx : Z
}.

(** Computations over the machine which may raise; the machine is kept as it
    was when an exception is raised.  [None] is not a Python outcome: it
    says that a loop of the model was given too few passes. *)
Definition M (A : Type) : Type := machine -> option (result A * machine).

Definition ret {A} (a : A) : M A := fun m => Some (Ok a, m).
Definition raise {A} (e : exn) : M A := fun m => Some (Raise e, m).
Definition out_of_fuel {A} : M A := fun _ => None.
Definition bind {A B} (c : M A) (k : A -> M B) : M B :=
  fun m =>
    match c m with
    | Some (Ok a, m') => k a m'
    | Some (Raise e, m') => Some (Raise e, m')
    | None => None
    end.
Definition lift {A} (r : result A) : M A := fun m => Some (r, m).

Notation "'let!' x ':=' c 'in' k" := (bind c (fun x => k))
  (at level 10, x pattern, c at level 100, k at level 200).
Notation "c '>>' k" := (bind c (fun _ => k))
  (at level 65, right associativity).

Definition get_idx : M Z := fun m => Some (Ok (idx m), m).
(** [idx += d] *)
Definition idx_add (d : Z) : M unit :=
  fun m => Some (Ok tt, Machine (instructions m) (conditions m) (args m) (idx m + d)).
Definition get_instructions : M (list instruction) := fun m => Some (Ok (instructions m), m).
Definition get_conditions : M (list pending) := fun m => Some (Ok (conditions m), m).
Definition set_conditions (cs : list pending) : M unit :=
  fun m => Some (Ok tt, Machine (instructions m) cs (args m) (idx m)).
Definition get_args : M (list value) := fun m => Some (Ok (args m), m).

(** [instructions[i]] *)
Definition instructions_get (i : Z) : M instruction :=
  fun m => Some (list_getitem (instructions m) i, m).

(** [instructions.pop(i)] *)
Definition instructions_pop (i : Z) : M unit :=
  fun m =>
    match list_pop_at (instructions m) i with
    | Ok l => Some (Ok tt, Machine l (conditions m) (args m) (idx m))
    | Raise e => Some (Raise e, m)
    end.

(** [args.pop()] *)
Definition args_pop : M value :=
  fun m =>
    match list_pop (args m) with
    | Some (l, v) => Some (Ok v, Machine (instructions m) (conditions m) l (idx m))
    | None => Some (Raise (IndexError "pop from empty list"), m)
    end.

(** [args.append(v)] *)
Definition args_append (v : value) : M unit :=
  fun m => Some (Ok tt, Machine (instructions m) (conditions m) (args m ++ [v]) (idx m)).

(** [conditions.append(c)] *)
Definition conditions_append (c : pending) : M unit :=
  fun m => Some (Ok tt, Machine (instructions m) (conditions m ++ [c]) (args m) (idx m)).

(** The pair of statements [instructions.pop(idx - 1); idx -= 1], by which an
    instruction folded into the value on the stack leaves the stream. *)
Definition excise_previous : M unit :=
  let! i := get_idx in
  instructions_pop (i - 1) >>
  idx_add (-1).

(** [for i in range(n): acc.appendleft(args.pop()); instructions.pop(idx - 1); idx -= 1] *)
Fixpoint gather (n : nat) (acc : list value) : M (list value) :=
  match n with
  | O => ret acc
  | S n' =>
      let! v := args_pop in
      excise_previous >>
      gather n' (v :: acc)
  end.

(** How one pass through the body of the loop ends. *)
Inductive flow : Type :=
| Next
| Break
| Return (v : value).

Section Parser.
Context (rt : Runtime) (closure : closure_vars).

(** [closure_vars.nonlocals.get(name, closure_vars.globals.get(name,
    closure_vars.builtins.get(name, None)))]; the innermost call is
    evaluated first. *)
Definition resolve (name : value) : result value :=
  match dict_get rt (builtins closure) name VNone with
  | Raise e => Raise e
  | Ok b =>
      match dict_get rt (globals closure) name b with
      | Raise e => Raise e
      | Ok g => dict_get rt (nonlocals closure) name g
      end
  end.

Definition _deref_is_callable (instruction : instruction) : result bool :=
  match resolve (argval instruction) with
  | Ok deref => Ok (is_callable rt deref)
  | Raise e => Raise e
  end.

Definition is_attr_load (o : string) : bool :=
  String.eqb o "LOAD_METHOD" || String.eqb o "LOAD_ATTR".

(** The look-ahead of the function-load case:
    [while idx + 1 < len(instructions): ...].  Every pass which does not
    leave the loop removes one instruction, so it is left after at most
    [len(instructions) + 1] passes. *)
Fixpoint fold_attributes (fuel : nat) (function : value) : M value :=
  match fuel with
  | O => out_of_fuel
  | S fuel' =>
      let! i := get_idx in
      let! l := get_instructions in
      if i + 1 <? Z.of_nat (length l) then
        let! next := instructions_get (i + 1) in
        if is_attr_load (opname next) then
          let! function' := lift (rt_getattr rt function (argval next)) in
          instructions_pop (i + 1) >>
          fold_attributes fuel' function'
        else ret function
      else ret function
  end.

(** The look-ahead with the bound under which it always leaves its loop. *)
Definition look_ahead (function : value) : M value :=
  let! l := get_instructions in
  fold_attributes (S (length l)) function.

(** [for name in reversed(kwarg_names): kwargs[name] = fn_args.pop()]; the
    deque [fn_args] is popped at its right end. *)
Fixpoint bind_keywords (names : list value) (fn_args : list value)
    (kwargs : list (value * value)) : result (list value * list (value * value)) :=
  match names with
  | [] => Ok (fn_args, kwargs)
  | name :: rest =>
      match list_pop fn_args with
      | None => Raise (IndexError "pop from an empty deque")
      | Some (fn_args', v) =>
          match dict_setitem rt kwargs name v with
          | Raise e => Raise e
          | Ok kwargs' => bind_keywords rest fn_args' kwargs'
          end
      end
  end.

(** [for i in range(n_keys): v = args.pop(); k = args.pop(); ...; arg[k] = v] *)
Fixpoint gather_map (n : nat) (arg : list (value * value)) : M (list (value * value)) :=
  match n with
  | O => ret arg
  | S n' =>
      let! v := args_pop in
      let! k := args_pop in
      excise_previous >>
      excise_previous >>
      let! arg' := lift (dict_setitem rt arg k v) in
      gather_map n' arg'
  end.

Definition supported_load (o : string) : bool :=
  String.eqb o "LOAD_METHOD" || String.eqb o "LOAD_ATTR" ||
  String.eqb o "LOAD_GLOBAL" || String.eqb o "LOAD_DEREF".

Definition is_build_sequence (o : string) : bool :=
  String.eqb o "BUILD_LIST" || String.eqb o "BUILD_TUPLE" || String.eqb o "BUILD_SET".

Definition is_call (o : string) : bool :=
  String.eqb o "CALL_METHOD" || String.eqb o "CALL_FUNCTION" ||
  String.eqb o "CALL_FUNCTION_KW".

Definition is_operator (o : string) : bool :=
  startswith o "BINARY_" || startswith o "INPLACE_" || String.eqb o "COMPARE_OP".

(** The test of the first [LOAD_DEREF] case, with the short-circuit of
    [and]: the closure variable is not callable and the next instruction is
    not an attribute load. *)
Definition deref_is_data (instruction : instruction) : M bool :=
  if String.eqb (opname instruction) "LOAD_DEREF" then
    let! callable := lift (_deref_is_callable instruction) in
    if callable then ret false
    else
      let! i := get_idx in
      let! next := instructions_get (i + 1) in
      ret (negb (is_attr_load (opname next)))
  else ret false.

(** The body of the [while] loop for the instruction at [idx], up to but not
    including the final [idx += 1]. *)
Definition step (instruction : instruction) : M flow :=
  let o := opname instruction in
  if String.eqb o "RETURN_VALUE" then
    let! cs := get_conditions in
    match list_pop cs with
    | Some (cs', current_condition) =>
        set_conditions cs' >>
        let! arg := args_pop in
        excise_previous >>
        match p_left current_condition with
        | VNone =>
            conditions_append (Pending arg VNone (p_condition current_condition)) >>
            excise_previous >>
            ret Next
        | left' =>
            args_append (VCondition left' arg (p_condition current_condition)) >>
            let! cs'' := get_conditions in
            match cs'' with
            | [] => ret Next
            | _ => idx_add (-1) >> ret Next
            end
        end
    | None => ret Break
    end
  else if String.eqb o "LOAD_CONST" then
    args_append (argval instruction) >> ret Next
  else if String.eqb o "LOAD_FAST" then
    args_append (VVarWrap (argval instruction)) >> ret Next
  else if is_build_sequence o then
    let! n_args := lift (py_range (argval instruction)) in
    let! arg := gather n_args [] in
    let! arg' :=
      (if String.eqb o "BUILD_TUPLE" then ret (VTuple arg)
       else if String.eqb o "BUILD_SET" then lift (py_set rt arg)
       else ret (VList arg)) in
    args_append arg' >> ret Next
  else if String.eqb o "BUILD_MAP" then
    let! n_keys := lift (py_range (argval instruction)) in
    let! arg := gather_map n_keys [] in
    args_append (VDict arg) >> ret Next
  else if String.eqb o "BUILD_CONST_KEY_MAP" then
    let! keys := args_pop in
    excise_previous >>
    let! n := lift (py_range (argval instruction)) in
    let! vals := gather n [] in
    let! keys' := lift (py_iter rt keys) in
    let! d := lift (dict_of_pairs rt [] (zip keys' vals)) in
    args_append (VDict d) >> ret Next
  else
    let! data := deref_is_data instruction in
    if data then
      let! v := lift (resolve (argval instruction)) in
      args_append v >> ret Next
    else if supported_load o then
      let! i := get_idx in
      let! current := instructions_get i in
      let! function := lift (resolve (argval current)) in
      let! function' := look_ahead function in
      args_append function' >> ret Next
    else if is_call o then
      let! kwarg_names :=
        (if String.eqb o "CALL_FUNCTION_KW" then
           let! names := args_pop in
           excise_previous >> ret names
         else ret (VList [])) in
      let! n_args := lift (py_range (argval instruction)) in
      let! fn_args := gather n_args [] in
      let! names := lift (py_reversed rt kwarg_names) in
      let! (fn_args', kwargs) := lift (bind_keywords names fn_args []) in
      let! function := args_pop in
      excise_previous >>
      let! bound_args := lift (rt_signature_bind rt function fn_args' kwargs) in
      args_append (VBoundFn function (VBoundArguments bound_args)) >> ret Next
    else if is_operator o then
      let command := strip_prefix (strip_prefix o "BINARY_") "INPLACE_" in
      let command := if String.eqb o "COMPARE_OP" then argval instruction else VStr command in
      let! symbol := lift (table_lookup rt command) in
      match symbol with
      | None => ret (Return VNone)
      | Some symbol =>
          let! right' := args_pop in
          excise_previous >>
          let! left' := args_pop in
          excise_previous >>
          args_append (VCommand left' right' symbol) >> ret Next
      end
    else if String.eqb o "POP_JUMP_IF_FALSE" then
      let! predicate := args_pop in
      conditions_append (Pending VNone VNone predicate) >>
      excise_previous >>
      ret Next
    else ret (Return VNone).

(** One pass of [while idx < len(instructions)]: [None] while the walk goes
    on, otherwise how the loop was left ([Break] also stands for the loop
    condition turning false). *)
Definition pass : M (option flow) :=
  let! i := get_idx in
  let! l := get_instructions in
  if i <? Z.of_nat (length l) then
    let! instruction := instructions_get i in
    let! f := step instruction in
    match f with
    | Next => idx_add 1 >> ret None
    | Break => ret (Some Break)
    | Return v => ret (Some (Return v))
    end
  else ret (Some Break).

Fixpoint while_loop (fuel : nat) : M flow :=
  match fuel with
  | O => out_of_fuel
  | S fuel' =>
      let! r := pass in
      match r with
      | None => while_loop fuel'
      | Some f => ret f
      end
  end.

(** The statements after the loop. *)
Definition conclude : M value :=
  let! cs := get_conditions in
  let! a := get_args in
  match cs with
  | [] =>
      match a with
      | [v] => ret v
      | _ => ret VNone
      end
  | _ => ret VNone
  end.

(** The whole function on the working copy [instructions]: the result and
    the machine it ends in.  The walk is given [2 * len(instructions) + 1]
    passes, which is always enough (see [run_parse_total]). *)
Definition run_parse (instructions : list instruction) : option (result value * machine) :=
  (let! f := while_loop (2 * length instructions + 1) in
   match f with
   | Return v => ret v
   | _ => conclude
   end) (Machine instructions [] [] 0).

Definition _parse_instructions (instructions : list instruction) : option (result value) :=
  fst <$> run_parse instructions.

(** The opcodes the loop has a case for. *)
Definition supported (o : string) : bool :=
  String.eqb o "RETURN_VALUE" || String.eqb o "LOAD_CONST" || String.eqb o "LOAD_FAST" ||
  is_build_sequence o || String.eqb o "BUILD_MAP" || String.eqb o "BUILD_CONST_KEY_MAP" ||
  supported_load o || is_call o || is_operator o || String.eqb o "POP_JUMP_IF_FALSE".

(** The mnemonic which the operator case looks up in the table. *)
Definition mnemonic (instruction : instruction) : value :=
  if String.eqb (opname instruction) "COMPARE_OP" then argval instruction
  else VStr (strip_prefix (strip_prefix (opname instruction) "BINARY_") "INPLACE_").

(** The walk: [reaches m m'] when the loop started in [m] comes to the top of
    a pass in [m']. *)
Inductive reaches : machine -> machine -> Prop :=
| reaches_here m : reaches m m
| reaches_pass m m' m'' :
    pass m = Some (Ok None, m') -> reaches m' m'' -> reaches m m''.

(** The instruction the pass starting in [m] looks at. *)
Definition current (m : machine) (instruction : instruction) : Prop :=
  idx m < Z.of_nat (length (instructions m)) /\
  list_getitem (instructions m) (idx m) = Ok instruction.

Definition unsupported_at (m : machine) : Prop :=
  exists instruction, current m instruction /\ supported (opname instruction) = false.

Definition unknown_operator_at (m : machine) : Prop :=
  exists instruction s,
    current m instruction /\ is_operator (opname instruction) = true /\
    mnemonic instruction = VStr s /\ _CommandTable !! s = None.

(** The loop is left in [m] by its condition or by the [break]. *)
Definition terminal (m : machine) : Prop :=
  ~ idx m < Z.of_nat (length (instructions m)) \/
  (conditions m = [] /\
   exists instruction, current m instruction /\ opname instruction = "RETURN_VALUE").

(** The exceptions the function lets through. *)
Definition propagated (e : exn) : Prop :=
  (exists msg, e = IndexError msg) \/ (exists msg, e = TypeError msg) \/
  (exists obj name, rt_getattr rt obj name = Raise e) \/
  (exists f a k, rt_signature_bind rt f a k = Raise e).

(** The quantity which every pass of the loop lowers. *)
Definition walk_measure (m : machine) : Z :=
  2 * Z.of_nat (length (instructions m)) - idx m.

(** [bounded d c m]: run in [m], the computation [c] ends; it raises only
    what is [propagated], and otherwise adds at most [d] to the measure. *)
Definition bounded {A} (d : Z) (c : M A) (m : machine) : Prop :=
  match c m with
  | Some (Ok _, m') => walk_measure m' <= walk_measure m + d
  | Some (Raise e, _) => propagated e
  | None => False
  end.

(** The function as the caller sees it, on a store of list objects: the
    argument is a reference [caller] to the caller's list; the first
    statement binds the local name [instructions] to a new list [copy], and
    every later [pop] acts on the list that name refers to. *)
Definition _parse_instructions_at (store : gmap positive (list instruction)) (caller : positive)
    : option (result value * gmap positive (list instruction)) :=
  let copy := fresh (dom store) in
  let store := <[copy := store !!! caller]> store in
  match run_parse (store !!! copy) with
  | Some (r, m) => Some (r, <[copy := instructions m]> store)
  | None => None
  end.

End Parser.

(** ** The value tracer

    [_trace_value] is a pure function of its input; it is instrumented here
    with the number of times it calls [_parse_instructions].  Its recursion
    follows the value and, for a lambda, the expression reconstructed from
    it, so the model bounds it by [depth]; [None] says that the bound was
    too small. *)
Definition T (A : Type) : Type := option (result A * nat).

Definition tret {A} (a : A) : T A := Some (Ok a, 0%nat).
Definition traise {A} (e : exn) : T A := Some (Raise e, 0%nat).
Definition tlift {A} (r : result A) : T A := Some (r, 0%nat).
Definition tbind {A B} (c : T A) (k : A -> T B) : T B :=
  match c with
  | Some (Ok a, n) =>
      match k a with
      | Some (r, n') => Some (r, (n + n')%nat)
      | None => None
      end
  | Some (Raise e, n) => Some (Raise e, n)
  | None => None
  end.
(** a call of [_parse_instructions] *)
Definition reconstruct {A} (r : option (result A)) : T A :=
  match r with
  | Some r => Some (r, 1%nat)
  | None => None
  end.

Notation "'let*' x ':=' c 'in' k" := (tbind c (fun x => k))
  (at level 10, x pattern, c at level 100, k at level 200).

Fixpoint tmap {A B} (f : A -> T B) (l : list A) : T (list B) :=
  match l with
  | [] => tret []
  | x :: rest =>
      let* y := f x in
      let* ys := tmap f rest in
      tret (y :: ys)
  end.

Definition quote (s : string) : string := "'" +:+ s +:+ "'".

(** [str.join(", ", map(lambda x: "'{}'".format(x), var_names)) or 'no arguments'] *)
Definition describe_params (var_names : list string) : string :=
  let joined := str_join ", " (map quote var_names) in
  if String.eqb joined EmptyString then "no arguments" else joined.

(** The suffix [(id: ...)] of an object, or nothing when [include_id] is
    false. *)
Definition id_str (id : Z) (include_id : bool) : string :=
  if include_id then " (id: " +:+ pretty id +:+ ")" else EmptyString.

Section Tracer.
Context (rt : Runtime).

(** The chain of [isinstance] tests is a match on the kind of the value; the
    kinds are disjoint, except that an object with the attribute
    [_fe_traceability_summary] is caught by the second test and an object
    without it by the last but one ([hasattr(inp, '__class__')]). *)
Fixpoint _trace_value (depth : nat) (inp : value) (wrap_str include_id : bool) : T string :=
  match depth with
  | O => None
  | S depth' =>
      match inp with
      | VStr s => tret (if wrap_str then quote s else s)
      | VObject o =>
          match assoc "_fe_traceability_summary" (__dict__ o) with
          | Some summary => tret (py_str rt summary)
          | None =>
              tret ("an instance of " +:+ cls_modname o +:+ "." +:+ cls_qualname o
                    +:+ id_str (cls_id o) include_id)
          end
      | VNone | VBool _ | VInt _ | VFloat _ => tret (py_str rt inp)
      | VMethod name self =>
          let* s := _trace_value depth' self wrap_str include_id in
          tret ("the '" +:+ name +:+ "' method of (" +:+ s +:+ ")")
      | VLambda var_names instructions closure_vars =>
          let* func_description := reconstruct (_parse_instructions rt closure_vars instructions) in
          match func_description with
          | VNone => tret ("a lambda function passing " +:+ describe_params var_names)
          | _ =>
              let* s := _trace_value depth' func_description wrap_str include_id in
              tret ("a lambda function passing " +:+ describe_params var_names
                    +:+ " to: " +:+ s)
          end
      | VFunction m q _ | VClass m q => tret (m +:+ "." +:+ q)
      | VCommand l r command =>
          let* sl := _trace_value depth' l wrap_str include_id in
          let* sr := _trace_value depth' r wrap_str include_id in
          tret (sl +:+ " " +:+ command +:+ " " +:+ sr)
      | VCondition l r c =>
          let* sl := _trace_value depth' l wrap_str include_id in
          let* sc := _trace_value depth' c wrap_str include_id in
          let* sr := _trace_value depth' r wrap_str include_id in
          tret (sl +:+ " if " +:+ sc +:+ " else " +:+ sr)
      | VBoundFn func args =>
          let* sf := _trace_value depth' func wrap_str false in
          let* sa := _trace_value depth' args false include_id in
          tret (sf +:+ " invoked with: " +:+ sa)
      | VBoundArguments arguments =>
          _trace_value depth' (VDict (map (fun kv => (VStr (fst kv), snd kv)) arguments))
            false include_id
      | VVarWrap var => tret (py_str rt var)
      | VModel model_name id =>
          let name :=
            match model_name with
            | Some n => py_str rt n
            | None => "<Unknown Model Name>"
            end in
          tret ("a neural network model named '" +:+ name +:+ "'" +:+ id_str id include_id)
      | VList xs =>
          let* parts := tmap (fun x => _trace_value depth' x wrap_str include_id) xs in
          tret ("[" +:+ str_join ", " parts +:+ "]")
      | VTuple xs =>
          let* parts := tmap (fun x => _trace_value depth' x wrap_str include_id) xs in
          tret ("(" +:+ str_join ", " parts +:+ ")")
      | VSet xs =>
          let* parts := tmap (fun x => _trace_value depth' x wrap_str include_id) xs in
          tret ("{" +:+ str_join ", " parts +:+ "}")
      | VDict items =>
          let* parts :=
            tmap (fun kv =>
                    let* sk := _trace_value depth' (fst kv) wrap_str include_id in
                    let* sv := _trace_value depth' (snd kv) true true in
                    tret (sk +:+ "=" +:+ sv)) items in
          tret ("{" +:+ str_join ", " parts +:+ "}")
      | VTensor repr => tret repr
      end
  end.

End Tracer.

(** ** The class decorator *)

(** The [whitelist] and [blacklist] arguments: [Union[str, Tuple[str]]]. *)
Inductive names : Type :=
| Str (s : string)
| Tuple (xs : list string).

(** A class as the decorator sees it: its name, its [__init__] (the function
    object, whose signature is inspected, and what calling it does to the
    instance), and the two methods the decorator may install. *)
Record pyclass : Type := PyClass {
  class_modname : string;
  class_qualname : string;
  class_id : Z;
  init_function : value;
  __init__ : instance -> list value -> list (string * value) -> T instance;
  fe_summary_method : option (instance -> result string);
  fe_state_method : option (instance -> result (list (string * value)))
}.

Definition hasattr (self : instance) (name : string) : bool :=
  match assoc name (__dict__ self) with Some _ => true | None => false end.

(** [d[k] = v] on a dictionary whose keys are strings *)
Fixpoint str_dict_set (d : list (string * value)) (k : string) (v : value) : list (string * value) :=
  match d with
  | [] => [(k, v)]
  | (k', v') :: rest =>
      if String.eqb k k' then (k', v) :: rest else (k', v') :: str_dict_set rest k v
  end.

(** [d.pop(k, None)] on a dictionary whose keys are strings *)
Definition str_dict_discard (d : list (string * value)) (k : string) : list (string * value) :=
  List.filter (fun kv => negb (String.eqb k (fst kv))) d.

Definition setattr (self : instance) (name : string) (v : value) : instance :=
  Instance (cls_modname self) (cls_qualname self) (cls_id self)
    (str_dict_set (__dict__ self) name v).

Definition bookkeeping : list string := ["_fe_state_whitelist"; "_fe_state_blacklist"].

Definition str_tuple (xs : list string) : value := VTuple (map VStr xs).

(** The instance has the attributes which [init] gives it for a class
    decorated with [whitelist] and [blacklist]. *)
Definition configured (whitelist blacklist : list string) (self : instance) : Prop :=
  assoc "_fe_state_whitelist" (__dict__ self) = Some (str_tuple whitelist) /\
  assoc "_fe_state_blacklist" (__dict__ self) = Some (str_tuple (blacklist ++ bookkeeping)).

Section Decorator.
Context (rt : Runtime) (recursion_limit : nat).

(** The statements of [init] before the call of [base_init]. *)
Definition init_prologue (whitelist blacklist : list string) (base_init : value)
    (self : instance) (args : list value) (kwargs : list (string * value)) : T instance :=
  let self :=
    if hasattr self "_fe_state_whitelist" then self
    else setattr self "_fe_state_whitelist" (str_tuple whitelist) in
  let self :=
    if hasattr self "_fe_state_blacklist" then self
    else setattr self "_fe_state_blacklist" (str_tuple (blacklist ++ bookkeeping)) in
  if hasattr self "_fe_traceability_summary" then tret self
  else
    let* bound_args :=
      tlift (rt_signature_bind rt base_init (VObject self :: args)
               (map (fun kv => (VStr (fst kv), snd kv)) kwargs)) in
    let* bound_args :=
      match assoc "self" bound_args with
      | Some _ => tret (str_dict_discard bound_args "self")
      | None => traise (KeyError "self")
      end in
    let* summary :=
      _trace_value rt recursion_limit
        (VBoundFn (VObject self) (VDict (map (fun kv => (VStr (fst kv), snd kv)) bound_args)))
        true true in
    tret (setattr self "_fe_traceability_summary" (VStr summary)).

Definition init (whitelist blacklist : list string) (cls : pyclass)
    (self : instance) (args : list value) (kwargs : list (string * value)) : T instance :=
  let* self := init_prologue whitelist blacklist (init_function cls) self args kwargs in
  __init__ cls self args kwargs.

Definition fe_summary (self : instance) : result string :=
  match assoc "_fe_traceability_summary" (__dict__ self) with
  | Some summary => Ok ("This experiment used " +:+ py_str rt summary)
  | None => Raise (AttributeError "_fe_traceability_summary")
  end.

(** [{key: state_dict[key] for key in whitelist}] *)
Fixpoint restrict (state_dict : list (string * value)) (whitelist : list string)
    (acc : list (string * value)) : result (list (string * value)) :=
  match whitelist with
  | [] => Ok acc
  | key :: rest =>
      match assoc key state_dict with
      | Some v => restrict state_dict rest (str_dict_set acc key v)
      | None => Raise (KeyError key)
      end
  end.

(** [for key in keys: state_dict.pop(key, None)] *)
Fixpoint discard_all (state_dict : list (string * value)) (keys : list value) : result (list (string * value)) :=
  match keys with
  | [] => Ok state_dict
  | key :: rest =>
      if hashable rt key then
        match key with
        | VStr k => discard_all (str_dict_discard state_dict k) rest
        | _ => discard_all state_dict rest
        end
      else Raise (TypeError "unhashable type")
  end.

(** The instance dictionary has one entry for a name, so the copy made by
    the first statement is the list itself. *)
Definition fe_state (whitelist : list string) (self : instance) : result (list (string * value)) :=
  let state_dict := __dict__ self in
  match assoc "_fe_state_whitelist" (__dict__ self) with
  | None => Raise (AttributeError "_fe_state_whitelist")
  | Some wl =>
      match (if truthy rt wl then restrict state_dict whitelist [] else Ok state_dict) with
      | Raise e => Raise e
      | Ok state_dict =>
          match assoc "_fe_state_blacklist" (__dict__ self) with
          | None => Raise (AttributeError "_fe_state_blacklist")
          | Some bl =>
              match py_iter rt bl with
              | Raise e => Raise e
              | Ok keys => discard_all state_dict keys
              end
          end
      end
  end.

Definition nonempty {A} (l : list A) : bool :=
  match l with [] => false | _ => true end.

Definition make_traceable (whitelist blacklist : list string) (cls : pyclass) : pyclass :=
  {| class_modname := class_modname cls;
     class_qualname := class_qualname cls;
     class_id := class_id cls;
     (* [def init(self, *args, **kwargs)] *)
     init_function :=
       VFunction "fastestimator.util.traceability_util"
         "traceable.<locals>.make_traceable.<locals>.init"
         [("self", None); ("*args", None); ("**kwargs", None)];
     __init__ := init whitelist blacklist cls;
     fe_summary_method :=
       match fe_summary_method cls with
       | None => Some fe_summary
       | Some base_func => Some base_func
       end;
     fe_state_method :=
       match fe_state_method cls with
       | Some base_func =>
           if nonempty whitelist || nonempty blacklist then Some (fe_state whitelist)
           else Some base_func
       | None => Some (fe_state whitelist)
       end |}.

(** [(whitelist, )] for a string, the tuple itself otherwise *)
Definition as_tuple (x : names) : list string :=
  match x with
  | Str s => [s]
  | Tuple xs => xs
  end.

Definition traceable (whitelist blacklist : names) : result (pyclass -> pyclass) :=
  let whitelist := as_tuple whitelist in
  let blacklist := as_tuple blacklist in
  if nonempty whitelist && nonempty blacklist then
    Raise (ValueError "Traceable objects may specify a whitelist or a blacklist, but not both")
  else Ok (make_traceable whitelist blacklist).

(** Calling the class: a new instance with an empty dictionary goes through
    [__init__]. *)
Definition construct (cls : pyclass) (args : list value) (kwargs : list (string * value)) : T instance :=
  __init__ cls (Instance (class_modname cls) (class_qualname cls) (class_id cls) []) args kwargs.

End Decorator.

(** ** A runtime for plain functions and objects *)

(** Modelled from the spec: the signature-binding capability
    ([inspect.signature], [bind] and [apply_defaults]), which lies outside
    the module, for a function all of whose parameters are plain
    positional-or-keyword ones: positional arguments fill the parameters in
    order, the others are taken by name or from their default, and the
    result lists the parameters in their declared order. *)
Fixpoint bind_simple (params : list (string * option value)) (args : list value)
    (kwargs : list (string * value)) : result (list (string * value)) :=
  match params with
  | [] =>
      match args, kwargs with
      | [], [] => Ok []
      | _ :: _, _ => Raise (TypeError "too many positional arguments")
      | [], _ :: _ => Raise (TypeError "got an unexpected keyword argument")
      end
  | (name, default) :: rest =>
      match args with
      | a :: args' =>
          match assoc name kwargs with
          | Some _ => Raise (TypeError "multiple values for argument")
          | None =>
              match bind_simple rest args' kwargs with
              | Ok bound => Ok ((name, a) :: bound)
              | Raise e => Raise e
              end
          end
      | [] =>
          match assoc name kwargs, default with
          | Some v, _ | None, Some v =>
              match bind_simple rest [] (str_dict_discard kwargs name) with
              | Ok bound => Ok ((name, v) :: bound)
              | Raise e => Raise e
              end
          | None, None => Raise (TypeError "missing a required argument")
          end
      end
  end.

(** The keyword arguments of a call have strings as names. *)
Fixpoint keyword_names (kwargs : list (value * value)) : result (list (string * value)) :=
  match kwargs with
  | [] => Ok []
  | (VStr k, v) :: rest =>
      match keyword_names rest with
      | Ok kw => Ok ((k, v) :: kw)
      | Raise e => Raise e
      end
  | _ :: _ => Raise (TypeError "keywords must be strings")
  end.

(** Modelled from the spec: the same capability for a function which may
    also have a parameter [*name], which takes the positional arguments
    that are left as a tuple, and a last parameter [**name], which takes the
    keyword arguments that are left as a dictionary; the parameters after
    [*name] are taken by name only. *)
Fixpoint bind_parameters (params : list (string * option value)) (args : list value)
    (kwargs : list (string * value)) : result (list (string * value)) :=
  match params with
  | [] => bind_simple [] args kwargs
  | (name, default) :: rest =>
      match drop_prefix "**" name with
      | Some name' =>
          match args with
          | [] => Ok [(name', VDict (map (fun kv => (VStr (fst kv), snd kv)) kwargs))]
          | _ :: _ => Raise (TypeError "too many positional arguments")
          end
      | None =>
          match drop_prefix "*" name with
          | Some name' =>
              match bind_parameters rest [] kwargs with
              | Ok bound => Ok ((name', VTuple args) :: bound)
              | Raise e => Raise e
              end
          | None =>
              match args with
              | a :: args' =>
                  match assoc name kwargs with
                  | Some _ => Raise (TypeError "multiple values for argument")
                  | None =>
                      match bind_parameters rest args' kwargs with
                      | Ok bound => Ok ((name, a) :: bound)
                      | Raise e => Raise e
                      end
                  end
              | [] =>
                  match assoc name kwargs, default with
                  | Some v, _ | None, Some v =>
                      match bind_parameters rest [] (str_dict_discard kwargs name) with
                      | Ok bound => Ok ((name, v) :: bound)
                      | Raise e => Raise e
                      end
                  | None, None => Raise (TypeError "missing a required argument")
                  end
              end
          end
      end
  end.

(** The order in which a small set of small natural numbers is iterated:
    such a number is its own hash, so they come in increasing order.  Other
    elements are left where they are. *)
Fixpoint hash_insert (x : value) (l : list value) : list value :=
  match l with
  | [] => [x]
  | y :: rest =>
      match x, y with
      | VInt a, VInt b => if a <=? b then x :: l else y :: hash_insert x rest
      | _, _ => x :: l
      end
  end.

Definition hash_order (l : list value) : list value :=
  fold_right hash_insert [] l.

Definition simple_eq (a b : value) : bool :=
  match a, b with
  | VNone, VNone => true
  | VBool x, VBool y => Bool.eqb x y
  | VInt x, VInt y => x =? y
  | VStr x, VStr y => String.eqb x y
  | _, _ => false
  end.

(** Objects are hashable and true, are neither callable nor iterable, and
    have the attributes of their dictionary; functions declare their
    parameters. *)
Definition simple_runtime : Runtime :=
  {| rt_hashable := fun _ => true;
     rt_eq := simple_eq;
     rt_set_order := hash_order;
     rt_truthy := fun _ => true;
     rt_callable := fun _ => false;
     rt_iter := fun _ => None;
     rt_reversed := fun _ => None;
     rt_str := fun _ => "<object>";
     rt_getattr := fun obj name =>
       match obj, name with
       | VObject o, VStr a =>
           match assoc a (__dict__ o) with
           | Some v => Ok v
           | None => Raise (AttributeError a)
           end
       | _, VStr a => Raise (AttributeError a)
       | _, _ => Raise (TypeError "attribute name must be string")
       end;
     rt_signature_bind := fun f args kwargs =>
       match f with
       | VFunction _ _ params =>
           match keyword_names kwargs with
           | Ok kw => bind_parameters params args kw
           | Raise e => Raise e
           end
       | _ => Raise (TypeError "is not a callable object")
       end |}.

(** ** Example programs *)

(** The instruction stream of [lambda x, y: x if x > y else y]. *)
Definition ternary_stream : list instruction :=
  [ Instruction "LOAD_FAST" (VStr "x");
    Instruction "LOAD_FAST" (VStr "y");
    Instruction "COMPARE_OP" (VStr ">");
    Instruction "POP_JUMP_IF_FALSE" (VInt 8);
    Instruction "LOAD_FAST" (VStr "x");
    Instruction "RETURN_VALUE" VNone;
    Instruction "LOAD_FAST" (VStr "y");
    Instruction "RETURN_VALUE" VNone ].

Definition no_scope : closure_vars := ClosureVars [] [] [].

(** A class [Widget] of module [modname] whose constructor is
    [def __init__(self, name, count)] and stores its two arguments. *)
Definition Widget_init (modname : string) : value :=
  VFunction modname "Widget.__init__" [("self", None); ("name", None); ("count", None)].

Definition Widget (modname : string) : pyclass :=
  {| class_modname := modname;
     class_qualname := "Widget";
     class_id := 94342;
     init_function := Widget_init modname;
     __init__ := fun self args kwargs =>
       match bind_simple [("name", None); ("count", None)] args kwargs with
       | Ok bound =>
           match assoc "name" bound, assoc "count" bound with
           | Some name, Some count =>
               tret (setattr (setattr self "name" name) "count" count)
           | _, _ => traise (TypeError "missing a required argument")
           end
       | Raise e => traise e
       end;
     fe_summary_method := None;
     fe_state_method := None |}.

(** What a call of the method [fe_summary] or [fe_state] of a class does. *)
Definition call_fe_summary (cls : pyclass) (self : instance) : result string :=
  match fe_summary_method cls with
  | Some f => f self
  | None => Raise (AttributeError "fe_summary")
  end.

Definition call_fe_state (cls : pyclass) (self : instance) : result (list (string * value)) :=
  match fe_state_method cls with
  | Some f => f self
  | None => Raise (AttributeError "fe_state")
  end.

(** [Widget(name="w", count=3)] for the class decorated with
    [@traceable()], and the summary of the instance. *)
Definition widget_summary (modname : string) : option (result string) :=
  match construct (make_traceable simple_runtime 10 [] [] (Widget modname)) []
          [("name", VStr "w"); ("count", VInt 3)] with
  | Some (Ok self, _) =>
      Some (call_fe_summary (make_traceable simple_runtime 10 [] [] (Widget modname)) self)
  | Some (Raise e, _) => Some (Raise e)
  | None => None
  end.

(** [Widget(name="w", count=3)] for the class of module [__main__]
    decorated with [@traceable(whitelist, blacklist)]; the instance is then
    given an attribute [secret], and its state is asked for. *)
Definition widget_state (whitelist blacklist : list string) : option (result (list (string * value))) :=
  let cls := make_traceable simple_runtime 10 whitelist blacklist (Widget "__main__") in
  match construct cls [] [("name", VStr "w"); ("count", VInt 3)] with
  | Some (Ok self, _) => Some (call_fe_state cls (setattr self "secret" (VInt 42)))
  | Some (Raise e, _) => Some (Raise e)
  | None => None
  end.

(** The instruction stream of [lambda x: x + 1]. *)
Definition increment_stream : list instruction :=
  [ Instruction "LOAD_FAST" (VStr "x");
    Instruction "LOAD_CONST" (VInt 1);
    Instruction "BINARY_ADD" VNone;
    Instruction "RETURN_VALUE" VNone ].

(** The instruction stream of [lambda: foo.bar(1, k=2)], and a scope in
    which [foo] is a module with the function [def bar(a, k=0)]. *)
Definition call_stream : list instruction :=
  [ Instruction "LOAD_GLOBAL" (VStr "foo");
    Instruction "LOAD_ATTR" (VStr "bar");
    Instruction "LOAD_CONST" (VInt 1);
    Instruction "LOAD_CONST" (VInt 2);
    Instruction "LOAD_CONST" (VTuple [VStr "k"]);
    Instruction "CALL_FUNCTION_KW" (VInt 2);
    Instruction "RETURN_VALUE" VNone ].

Definition foo_bar : value :=
  VFunction "foo" "bar" [("a", None); ("k", Some (VInt 0))].

Definition foo_scope : closure_vars :=
  ClosureVars [] [("foo", VObject (Instance "builtins" "module" 9800 [("bar", foo_bar)]))] [].

(** The instruction stream of [lambda x: x.foo(1)]. *)
Definition method_call_stream : list instruction :=
  [ Instruction "LOAD_FAST" (VStr "x");
    Instruction "LOAD_METHOD" (VStr "foo");
    Instruction "LOAD_CONST" (VInt 1);
    Instruction "CALL_METHOD" (VInt 1);
    Instruction "RETURN_VALUE" VNone ].

(** The instruction stream of [lambda x: -x]. *)
Definition negation_stream : list instruction :=
  [ Instruction "LOAD_FAST" (VStr "x");
    Instruction "UNARY_NEGATIVE" VNone;
    Instruction "RETURN_VALUE" VNone ].

(** Instances of [Widget]: a new one, one on which a wrapper entered earlier
    has stored its whitelist, and what the prologue of
    [@traceable(whitelist, blacklist)] makes of [Widget(name="w", count=3)]. *)
Definition new_widget : instance := Instance "__main__" "Widget" 94342 [].

Definition entered_widget : instance :=
  Instance "__main__" "Widget" 94342 [("_fe_state_whitelist", str_tuple ["count"])].

Definition widget_kwargs : list (string * value) := [("name", VStr "w"); ("count", VInt 3)].

Definition prepared_widget (whitelist blacklist : list string) : instance :=
  Instance "__main__" "Widget" 94342
    [ ("_fe_state_whitelist", str_tuple whitelist);
      ("_fe_state_blacklist", str_tuple (blacklist ++ bookkeeping));
      ("_fe_traceability_summary",
       VStr "an instance of __main__.Widget invoked with: {name='w', count=3}") ].

(** ** Further notions *)

(** No lambda occurs in the value where [_trace_value] looks: it does not
    look into the attributes of an object or of a model. *)
Fixpoint lambda_free (v : value) : bool :=
  match v with
  | VLambda _ _ _ => false
  | VList xs | VTuple xs | VSet xs => forallb lambda_free xs
  | VDict items => forallb (fun kv => lambda_free (fst kv) && lambda_free (snd kv)) items
  | VCommand l r _ => lambda_free l && lambda_free r
  | VCondition l r c => lambda_free l && lambda_free r && lambda_free c
  | VBoundFn f a => lambda_free f && lambda_free a
  | VBoundArguments arguments => forallb (fun kv => lambda_free (snd kv)) arguments
  | VMethod _ self => lambda_free self
  | _ => true
  end.

(** [class name(parent): pass]: the constructor and the methods are those
    of the parent. *)
Definition subclass (parent : pyclass) (modname name : string) (id : Z) : pyclass :=
  {| class_modname := modname;
     class_qualname := name;
     class_id := id;
     init_function := init_function parent;
     __init__ := __init__ parent;
     fe_summary_method := fe_summary_method parent;
     fe_state_method := fe_state_method parent |}.

(** ** Expressions and their instruction streams

    The expressions built from constants, parameters of the lambda, the
    binary operators and comparisons of the Operator Table, and list and
    tuple displays; [compile] is the postfix instruction stream of such an
    expression (as CPython emits it when it folds no constants), [denote]
    the value which stands for the expression. *)
Inductive operator : Type :=
| POWER | MULTIPLY | MATRIX_MULTIPLY | FLOOR_DIVIDE | TRUE_DIVIDE | MODULO
| ADD | SUBTRACT | SUBSCR | LSHIFT | RSHIFT | AND | XOR | OR
| GT | LT | EQ | NE | LE | GE.

Definition is_comparison (o : operator) : bool :=
  match o with
  | GT | LT | EQ | NE | LE | GE => true
  | _ => false
  end.

(** The key of the operator in [_CommandTable]. *)
Definition operator_key (o : operator) : string :=
  match o with
  | POWER => "POWER" | MULTIPLY => "MULTIPLY" | MATRIX_MULTIPLY => "MATRIX_MULTIPLY"
  | FLOOR_DIVIDE => "FLOOR_DIVIDE" | TRUE_DIVIDE => "TRUE_DIVIDE" | MODULO => "MODULO"
  | ADD => "ADD" | SUBTRACT => "SUBTRACT" | SUBSCR => "SUBSCR" | LSHIFT => "LSHIFT"
  | RSHIFT => "RSHIFT" | AND => "AND" | XOR => "XOR" | OR => "OR"
  | GT => ">" | LT => "<" | EQ => "==" | NE => "!=" | LE => "<=" | GE => ">="
  end.

(** The symbol of the operator in [_CommandTable]. *)
Definition operator_symbol (o : operator) : string :=
  match o with
  | POWER => "**" | MULTIPLY => "*" | MATRIX_MULTIPLY => "@"
  | FLOOR_DIVIDE => "//" | TRUE_DIVIDE => "/" | MODULO => "%"
  | ADD => "+" | SUBTRACT => "-" | SUBSCR => "[]" | LSHIFT => "<<"
  | RSHIFT => ">>" | AND => "&" | XOR => "^" | OR => "|"
  | GT => ">" | LT => "<" | EQ => "==" | NE => "!=" | LE => "<=" | GE => ">="
  end.

(** [BINARY_<key>] for an operator, [COMPARE_OP] with the comparison as its
    argument for a comparison. *)
Definition operator_instruction (o : operator) : instruction :=
  if is_comparison o then Instruction "COMPARE_OP" (VStr (operator_key o))
  else Instruction ("BINARY_" +:+ operator_key o) VNone.

Unset Elimination Schemes.
Inductive expr : Type :=
| Const (v : value)
| Local (name : string)
| Operation (o : operator) (l r : expr)
| ListDisplay (es : list expr)
| TupleDisplay (es : list expr).
Set Elimination Schemes.

Fixpoint compile (e : expr) : list instruction :=
  match e with
  | Const v => [Instruction "LOAD_CONST" v]
  | Local name => [Instruction "LOAD_FAST" (VStr name)]
  | Operation o l r => compile l ++ compile r ++ [operator_instruction o]
  | ListDisplay es =>
      concat (map compile es) ++ [Instruction "BUILD_LIST" (VInt (Z.of_nat (length es)))]
  | TupleDisplay es =>
      concat (map compile es) ++ [Instruction "BUILD_TUPLE" (VInt (Z.of_nat (length es)))]
  end.

(** The last instruction of the stream of an expression. *)
Definition root (e : expr) : instruction :=
  match e with
  | Const v => Instruction "LOAD_CONST" v
  | Local name => Instruction "LOAD_FAST" (VStr name)
  | Operation o _ _ => operator_instruction o
  | ListDisplay es => Instruction "BUILD_LIST" (VInt (Z.of_nat (length es)))
  | TupleDisplay es => Instruction "BUILD_TUPLE" (VInt (Z.of_nat (length es)))
  end.

Fixpoint denote (e : expr) : value :=
  match e with
  | Const v => v
  | Local name => VVarWrap (VStr name)
  | Operation o l r => VCommand (denote l) (denote r) (operator_symbol o)
  | ListDisplay es => VList (map denote es)
  | TupleDisplay es => VTuple (map denote es)
  end.

(** The stream of [lambda ...: a if c else b]; the jump carries its target,
    which the reconstructor does not read. *)
Definition compile_ternary (c a b : expr) (target : value) : list instruction :=
  compile c ++ [Instruction "POP_JUMP_IF_FALSE" target] ++
  compile a ++ [Instruction "RETURN_VALUE" VNone] ++
  compile b ++ [Instruction "RETURN_VALUE" VNone].

(** The machine whose walk stands after the instructions [pre]. *)
Definition at_position (pre rest : list instruction) (conds : list pending)
    (stack : list value) : machine :=
  Machine (pre ++ rest) conds stack (Z.of_nat (length pre)).

(** ** Further example programs *)

(** A class [Counter] whose constructor is [def __init__(self)] and sets
    [count] to zero. *)
Definition Counter : pyclass :=
  {| class_modname := "__main__";
     class_qualname := "Counter";
     class_id := 94377;
     init_function := VFunction "__main__" "Counter.__init__" [("self", None)];
     __init__ := fun self _ _ => tret (setattr self "count" (VInt 0));
     fe_summary_method := None;
     fe_state_method := None |}.

(** [class Derived(Counter): pass], where [Counter] is decorated with the
    whitelist [("count",)] and [Derived] without lists. *)
Definition Derived : pyclass :=
  make_traceable simple_runtime 10 [] []
    (subclass (make_traceable simple_runtime 10 ["count"] [] Counter) "__main__" "Derived" 94400).

(** A constructor whose receiver is not called [self]. *)
Definition Odd_init : value :=
  VFunction "__main__" "Odd.__init__" [("this", None); ("name", None)].

(** The stream of [lambda: x] for a closure variable [x]. *)
Definition deref_stream : list instruction :=
  [ Instruction "LOAD_DEREF" (VStr "x"); Instruction "RETURN_VALUE" VNone ].

(** [getattr(... getattr(function, a1) ..., an)] *)
Fixpoint getattr_chain (rt : Runtime) (function : value) (attrs : list string) : result value :=
  match attrs with
  | [] => Ok function
  | a :: rest =>
      match rt_getattr rt function (VStr a) with
      | Ok function' => getattr_chain rt function' rest
      | Raise e => Raise e
      end
  end.

(** The stream of the call [name.a1. ... .an(e1, ..., ek)] of a global
    name with positional arguments. *)
Definition compile_call (name : string) (attrs : list string) (es : list expr) : list instruction :=
  Instruction "LOAD_GLOBAL" (VStr name) ::
  map (fun a => Instruction "LOAD_ATTR" (VStr a)) attrs ++
  concat (map compile es) ++
  [Instruction "CALL_FUNCTION" (VInt (Z.of_nat (length es)))].

(** The list does not begin with an attribute load. *)
Definition plain_head (l : list instruction) : Prop :=
  match l with
  | [] => True
  | i :: _ => is_attr_load (opname i) = false
  end.

(** ** The walk and its stack *)

(** The exceptions of [_parse_instructions], by origin: an operand missing
    on the stack, a keyword name without an argument, the look past the
    last instruction, a [TypeError], and what attribute access or the
    binding of a signature raise. *)
Definition walk_error (rt : Runtime) (e : exn) : Prop :=
  e = IndexError "pop from empty list" \/
  e = IndexError "pop from an empty deque" \/
  e = IndexError "list index out of range" \/
  (exists msg, e = TypeError msg) \/
  (exists obj name, rt_getattr rt obj name = Raise e) \/
  (exists f a k, rt_signature_bind rt f a k = Raise e).

(** [tidy s n m]: the values on the stack and the pending conditions, and
    [s] more, are at most as many as the instructions before [idx]; [idx]
    is below the length of the working copy, which is at most [n]. *)
Definition tidy (s : Z) (n : nat) (m : machine) : Prop :=
  Z.of_nat (length (args m) + length (conditions m)) + s <= idx m /\
  idx m < Z.of_nat (length (instructions m)) /\
  (length (instructions m) <= n)%nat.

(** The same at the top of a pass, before the test of the loop. *)
Definition orderly (n : nat) (m : machine) : Prop :=
  Z.of_nat (length (args m) + length (conditions m)) <= idx m /\
  idx m <= Z.of_nat (length (instructions m)) /\
  (length (instructions m) <= n)%nat.

(** [keeps rt P c Q]: from a machine in [P] the computation [c] ends; it
    ends in [Q], or raises a [walk_error]. *)
Definition keeps {A} (rt : Runtime) (P : machine -> Prop) (c : M A)
    (Q : A -> machine -> Prop) : Prop :=
  forall m, P m ->
    match c m with
    | Some (Ok a, m') => Q a m'
    | Some (Raise e, _) => walk_error rt e
    | None => False
    end.

(** What the body of the loop leaves when the walk goes on. *)
Definition goes_on (n : nat) (f : flow) (m : machine) : Prop :=
  match f with
  | Next => tidy (-1) n m
  | _ => True
  end.

(** [settles c c']: whatever [c] gives within its bound, [c'] gives too. *)
Definition settles {A} (c c' : T A) : Prop :=
  forall r, c = Some r -> c' = Some r.

(** What calling [Counter], decorated with the two lists, returns. *)
Definition counter (whitelist blacklist : list string) : instance :=
  Instance "__main__" "Counter" 94377
    [ ("_fe_state_whitelist", str_tuple whitelist);
      ("_fe_state_blacklist", str_tuple (blacklist ++ bookkeeping));
      ("_fe_traceability_summary", VStr "an instance of __main__.Counter invoked with: {}");
      ("count", VInt 0) ].

(** * Properties *)

(** ** Termination of the walk and the exceptions it lets through *)

Section ParserFacts.
Context (rt : Runtime) (closure : closure_vars).

Local Abbreviation propagated := (propagated rt).
Local Abbreviation bounded := (@bounded rt).

Lemma propagated_index msg : propagated (IndexError msg).
Proof. left. eauto. Qed.

Lemma propagated_type msg : propagated (TypeError msg).
Proof. right. left. eauto. Qed.

Lemma propagated_getattr obj name e : rt_getattr rt obj name = Raise e -> propagated e.
Proof. intros H. right. right. left. eauto. Qed.

Lemma propagated_bind f a k e : rt_signature_bind rt f a k = Raise e -> propagated e.
Proof. intros H. right. right. right. eauto. Qed.

Local Hint Resolve propagated_index propagated_type propagated_getattr propagated_bind : core.

Ltac raises :=
  intros; repeat (case_match; simplify_eq); simplify_eq; eauto.

Lemma list_getitem_raises {A} (l : list A) i e : list_getitem l i = Raise e -> propagated e.
Proof. unfold list_getitem. raises. Qed.

Lemma list_pop_at_raises {A} (l : list A) i e : list_pop_at l i = Raise e -> propagated e.
Proof. unfold list_pop_at. raises. Qed.

Lemma py_range_raises v e : py_range v = Raise e -> propagated e.
Proof. unfold py_range. raises. Qed.

Lemma py_iter_raises v e : py_iter rt v = Raise e -> propagated e.
Proof. unfold py_iter. raises. Qed.

Lemma py_reversed_raises v e : py_reversed rt v = Raise e -> propagated e.
Proof. unfold py_reversed. raises. Qed.

Lemma py_set_raises xs e : py_set rt xs = Raise e -> propagated e.
Proof. unfold py_set. raises. Qed.

Lemma dict_get_raises d k v e : dict_get rt d k v = Raise e -> propagated e.
Proof. unfold dict_get. raises. Qed.

Lemma dict_setitem_raises d k v e : dict_setitem rt d k v = Raise e -> propagated e.
Proof. unfold dict_setitem. raises. Qed.

Lemma dict_of_pairs_raises pairs acc e : dict_of_pairs rt acc pairs = Raise e -> propagated e.
Proof.
  revert acc. induction pairs as [|[k v] pairs IH]; intros acc; simpl; [done|].
  destruct (dict_setitem rt acc k v) eqn:E; [apply IH|].
  intros [= <-]. eapply dict_setitem_raises, E.
Qed.

Lemma table_lookup_raises v e : table_lookup rt v = Raise e -> propagated e.
Proof. unfold table_lookup. raises. Qed.

Lemma resolve_raises name e : resolve rt closure name = Raise e -> propagated e.
Proof.
  unfold resolve. intros H.
  repeat (case_match; simplify_eq); eauto using dict_get_raises.
Qed.

Lemma deref_is_callable_raises i e : _deref_is_callable rt closure i = Raise e -> propagated e.
Proof.
  unfold _deref_is_callable. intros H.
  case_match; simplify_eq. eauto using resolve_raises.
Qed.

Lemma bind_keywords_raises names fn_args kwargs e :
  bind_keywords rt names fn_args kwargs = Raise e -> propagated e.
Proof.
  revert fn_args kwargs. induction names as [|name names IH]; intros fn_args kwargs; simpl; [done|].
  destruct (list_pop fn_args) as [[fn_args' v]|]; [|intros [= <-]; eauto].
  destruct (dict_setitem rt kwargs name v) eqn:E; [apply IH|].
  intros [= <-]. eapply dict_setitem_raises, E.
Qed.

Local Hint Resolve list_getitem_raises list_pop_at_raises py_range_raises py_iter_raises
  py_reversed_raises py_set_raises dict_setitem_raises dict_of_pairs_raises
  table_lookup_raises resolve_raises deref_is_callable_raises bind_keywords_raises : core.

(** *** Rules for [bounded] *)

Lemma bounded_ret {A} d (a : A) m : 0 <= d -> bounded d (ret a) m.
Proof. unfold bounded, ret. lia. Qed.

Lemma bounded_bind {A B} d1 d (c : M A) (k : A -> M B) m :
  bounded d1 c m ->
  (forall a m', bounded (d - d1) (k a) m') ->
  bounded d (bind c k) m.
Proof.
  unfold bounded, bind. intros Hc Hk.
  destruct (c m) as [[[a|e] m']|]; try done.
  specialize (Hk a m'). destruct (k a m') as [[[b|e] m'']|]; try done. lia.
Qed.

Lemma bounded_lift {A B} d (r : result A) (k : A -> M B) m :
  (forall e, r = Raise e -> propagated e) ->
  (forall a, r = Ok a -> bounded d (k a) m) ->
  bounded d (bind (lift r) k) m.
Proof.
  unfold bounded, bind, lift. intros He Hk.
  destruct r as [a|e]; [by apply Hk | by apply He].
Qed.

Lemma bounded_lift_last {A} d (r : result A) m :
  (forall e, r = Raise e -> propagated e) -> 0 <= d -> bounded d (lift r) m.
Proof.
  unfold bounded, lift. intros He Hd.
  destruct r as [a|e]; [lia | by apply He].
Qed.

Lemma bounded_get_idx {B} d (k : Z -> M B) m :
  bounded d (k (idx m)) m -> bounded d (bind get_idx k) m.
Proof. done. Qed.

Lemma bounded_get_instructions {B} d (k : list instruction -> M B) m :
  bounded d (k (instructions m)) m -> bounded d (bind get_instructions k) m.
Proof. done. Qed.

Lemma bounded_get_conditions {B} d (k : list pending -> M B) m :
  bounded d (k (conditions m)) m -> bounded d (bind get_conditions k) m.
Proof. done. Qed.

Lemma bounded_get_args {B} d (k : list value -> M B) m :
  bounded d (k (args m)) m -> bounded d (bind get_args k) m.
Proof. done. Qed.

Lemma bounded_instructions_get {B} d i (k : instruction -> M B) m :
  (forall x, list_getitem (instructions m) i = Ok x -> bounded d (k x) m) ->
  bounded d (bind (instructions_get i) k) m.
Proof.
  unfold bounded, bind, instructions_get. intros Hk.
  destruct (list_getitem (instructions m) i) eqn:E; [by apply Hk | eauto].
Qed.

Lemma bounded_args_pop m : bounded 0 args_pop m.
Proof.
  unfold bounded, args_pop. destruct (list_pop (args m)) as [[l v]|]; [|eauto].
  unfold walk_measure. simpl. lia.
Qed.

Lemma bounded_args_append v m : bounded 0 (args_append v) m.
Proof. unfold bounded, args_append, walk_measure. simpl. lia. Qed.

Lemma bounded_conditions_append c m : bounded 0 (conditions_append c) m.
Proof. unfold bounded, conditions_append, walk_measure. simpl. lia. Qed.

Lemma bounded_set_conditions cs m : bounded 0 (set_conditions cs) m.
Proof. unfold bounded, set_conditions, walk_measure. simpl. lia. Qed.

Lemma bounded_idx_add k m : bounded (- k) (idx_add k) m.
Proof. unfold bounded, idx_add, walk_measure. simpl. lia. Qed.

Lemma py_index_lt n i j : py_index n i = Some j -> (j < n)%nat.
Proof. unfold py_index. intros H. case_match; simplify_eq. lia. Qed.

Lemma list_pop_at_length {A} (l l' : list A) i :
  list_pop_at l i = Ok l' -> length l = S (length l').
Proof.
  unfold list_pop_at. intros H.
  destruct l as [|x l]; [done|].
  destruct (py_index (length (x :: l)) i) as [j|] eqn:E; simplify_eq.
  apply py_index_lt in E.
  rewrite length_delete; [simpl in *; lia|].
  by apply lookup_lt_is_Some.
Qed.

Lemma bounded_instructions_pop i m : bounded (-2) (instructions_pop i) m.
Proof.
  unfold bounded, instructions_pop.
  destruct (list_pop_at (instructions m) i) as [l|e] eqn:E; [|eauto].
  apply list_pop_at_length in E. unfold walk_measure. simpl. lia.
Qed.

Lemma bounded_excise m : bounded (-1) excise_previous m.
Proof.
  unfold excise_previous. apply bounded_get_idx.
  apply (bounded_bind (-2)); [apply bounded_instructions_pop|].
  intros _ m'. generalize (bounded_idx_add (-1) m'). by replace (- -1) with (-1 - -2) by lia.
Qed.

Ltac bounded_step :=
  lazymatch goal with
  | |- bounded _ (ret _) _ => apply bounded_ret; lia
  | |- bounded _ (lift _) _ => apply bounded_lift_last; [solve [eauto] | lia]
  | |- bounded _ (bind get_idx _) _ => apply bounded_get_idx
  | |- bounded _ (bind get_instructions _) _ => apply bounded_get_instructions
  | |- bounded _ (bind get_conditions _) _ => apply bounded_get_conditions
  | |- bounded _ (bind get_args _) _ => apply bounded_get_args
  | |- bounded _ (bind (instructions_get _) _) _ =>
      apply bounded_instructions_get; intros ? ?
  | |- bounded _ (bind (lift _) _) _ =>
      apply bounded_lift; [solve [eauto] | intros ? ?]
  | |- bounded _ (bind args_pop _) _ =>
      apply (bounded_bind 0); [apply bounded_args_pop | intros ? ?]
  | |- bounded _ (bind (args_append _) _) _ =>
      apply (bounded_bind 0); [apply bounded_args_append | intros ? ?]
  | |- bounded _ (bind (conditions_append _) _) _ =>
      apply (bounded_bind 0); [apply bounded_conditions_append | intros ? ?]
  | |- bounded _ (bind (set_conditions _) _) _ =>
      apply (bounded_bind 0); [apply bounded_set_conditions | intros ? ?]
  | |- bounded _ (bind (idx_add ?k) _) _ =>
      apply (bounded_bind (- k)); [apply bounded_idx_add | intros ? ?]
  | |- bounded _ (bind excise_previous _) _ =>
      apply (bounded_bind (-1)); [apply bounded_excise | intros ? ?]
  | |- bounded _ (if ?b then _ else _) _ => destruct b eqn:?
  | |- bounded _ (match ?x with _ => _ end) _ => destruct x eqn:?
  | |- bounded _ (let (_, _) := ?x in _) _ => destruct x eqn:?
  end.

Lemma gather_bounded n acc d m : 0 <= d -> bounded d (gather n acc) m.
Proof.
  revert acc d m. induction n as [|n IH]; intros acc d m Hd; simpl.
  - bounded_step.
  - do 2 bounded_step. apply IH. lia.
Qed.

Lemma gather_map_bounded n arg d m : 0 <= d -> bounded d (gather_map rt n arg) m.
Proof.
  revert arg d m. induction n as [|n IH]; intros arg d m Hd; simpl.
  - bounded_step.
  - do 5 bounded_step. apply IH. lia.
Qed.

Lemma fold_attributes_bounded fuel function d m :
  0 <= d -> (length (instructions m) < fuel)%nat ->
  bounded d (fold_attributes rt fuel function) m.
Proof.
  revert function d m. induction fuel as [|fuel IH]; intros function d m Hd Hfuel; [lia|].
  simpl. (do 3 bounded_step); [|bounded_step].
  do 3 bounded_step.
  unfold bounded, bind. unfold instructions_pop at 1.
  destruct (list_pop_at (instructions m) (idx m + 1)) as [l|e] eqn:E; [|eauto].
  apply list_pop_at_length in E.
  set (m' := Machine l (conditions m) (args m) (idx m)).
  assert (H' : bounded (d + 2) (fold_attributes rt fuel a) m').
  { apply IH; [lia|]. simpl. lia. }
  unfold bounded in H'.
  destruct (fold_attributes rt fuel a m') as [[[v|e] m'']|]; try done.
  revert H'. unfold walk_measure. simpl. lia.
Qed.

Lemma look_ahead_bounded function d m : 0 <= d -> bounded d (look_ahead rt function) m.
Proof.
  intros Hd. unfold look_ahead. bounded_step.
  apply fold_attributes_bounded; [done | lia].
Qed.

Lemma deref_is_data_bounded i d m : 0 <= d -> bounded d (deref_is_data rt closure i) m.
Proof. intros Hd. unfold deref_is_data. repeat bounded_step. Qed.

(** One pass of the body, without the final [idx += 1], does not raise the
    measure. *)
Lemma step_bounded i m : bounded 0 (step rt closure i) m.
Proof.
  unfold step.
  repeat first
    [ bounded_step
    | lazymatch goal with
      | |- bounded _ (bind (gather _ _) _) _ =>
          apply (bounded_bind 0); [apply gather_bounded; lia | intros ? ?]
      | |- bounded _ (bind (gather_map _ _ _) _) _ =>
          apply (bounded_bind 0); [apply gather_map_bounded; lia | intros ? ?]
      | |- bounded _ (bind (look_ahead _ _) _) _ =>
          apply (bounded_bind 0); [apply look_ahead_bounded; lia | intros ? ?]
      | |- bounded _ (bind (deref_is_data _ _ _) _) _ =>
          apply (bounded_bind 0); [apply deref_is_data_bounded; lia | intros ? ?]
      | |- bounded _ (bind (if _ then _ else _) _) _ =>
          apply (bounded_bind 0); [| intros ? ?]
      end ].
Qed.

Lemma list_getitem_nonempty {A} (l : list A) i x : list_getitem l i = Ok x -> (0 < length l)%nat.
Proof.
  unfold list_getitem. intros H.
  destruct (py_index (length l) i) as [j|] eqn:E; [|done].
  apply py_index_lt in E. lia.
Qed.

(** A pass after which the walk goes on lowers the measure, which was at
    least two. *)
Lemma pass_spec m :
  match pass rt closure m with
  | Some (Ok None, m') => walk_measure m' <= walk_measure m - 1 /\ 2 <= walk_measure m
  | Some (Ok (Some _), _) => True
  | Some (Raise e, _) => propagated e
  | None => False
  end.
Proof.
  unfold pass, bind at 1 2, get_idx, get_instructions.
  destruct (idx m <? Z.of_nat (length (instructions m))) eqn:Hlt; [|done].
  unfold bind at 1, instructions_get.
  destruct (list_getitem (instructions m) (idx m)) as [i|e] eqn:Hi; [|eauto].
  apply list_getitem_nonempty in Hi.
  generalize (step_bounded i m). unfold bounded, bind.
  destruct (step rt closure i m) as [[[f|e] m']|]; try done.
  destruct f; simpl; try done.
  unfold walk_measure. simpl. lia.
Qed.

Lemma while_loop_total fuel m :
  walk_measure m < Z.of_nat fuel -> (1 <= fuel)%nat ->
  exists r m', while_loop rt closure fuel m = Some (r, m') /\
               forall e, r = Raise e -> propagated e.
Proof.
  revert m. induction fuel as [|fuel IH]; intros m Hm Hfuel; [lia|].
  simpl. unfold bind. generalize (pass_spec m).
  destruct (pass rt closure m) as [[[[f|]|e] m']|]; try done.
  - intros _. eexists _, _. split; [reflexivity | done].
  - intros [Hdec Htwo]. apply IH; lia.
  - intros He. eexists _, _. split; [reflexivity|]. by intros ? [= <-].
Qed.

Lemma conclude_spec m :
  exists v, conclude m = Some (Ok v, m) /\
            (conditions m <> [] \/ length (args m) <> 1%nat -> v = VNone).
Proof.
  unfold conclude, bind, get_conditions, get_args, ret.
  destruct (conditions m) as [|c cs]; [|by eauto].
  destruct (args m) as [|v [|w vs]]; eexists; (split; [reflexivity|]);
    simpl; intros [?|?]; done.
Qed.

(** The loop of [_parse_instructions] always comes to an end, and what the
    function raises is [propagated]. *)
Lemma run_parse_total instrs :
  exists r m, run_parse rt closure instrs = Some (r, m) /\
              forall e, r = Raise e -> propagated e.
Proof.
  unfold run_parse, bind.
  destruct (while_loop_total (2 * length instrs + 1) (Machine instrs [] [] 0))
    as (r & m & -> & Hr); [unfold walk_measure; simpl; lia | lia |].
  destruct r as [f|e].
  - destruct f; try (destruct (conclude_spec m) as (v & -> & _));
      eexists _, _; (split; [reflexivity | done]).
  - eexists _, _. split; [reflexivity|]. intros ? [= <-]. by apply Hr.
Qed.

Lemma while_loop_reaches m m' :
  reaches rt closure m m' ->
  forall fuel, walk_measure m < Z.of_nat fuel -> (1 <= fuel)%nat ->
  exists fuel', walk_measure m' < Z.of_nat fuel' /\ (1 <= fuel')%nat /\
                while_loop rt closure fuel m = while_loop rt closure fuel' m'.
Proof.
  induction 1 as [m|m m' m'' Hpass _ IH]; intros fuel Hm Hfuel; [by eauto|].
  destruct fuel as [|fuel]; [lia|].
  generalize (pass_spec m). rewrite Hpass. intros [Hdec Htwo].
  destruct (IH fuel) as (fuel' & ? & ? & Heq); [lia..|].
  exists fuel'. split_and!; [done..|].
  simpl. unfold bind at 1. by rewrite Hpass.
Qed.

(** What the function returns when the walk has come to a state in which
    the loop is left. *)
Lemma run_parse_leaves instrs m f m' :
  reaches rt closure (Machine instrs [] [] 0) m ->
  pass rt closure m = Some (Ok (Some f), m') ->
  run_parse rt closure instrs =
    match f with
    | Return v => Some (Ok v, m')
    | _ => conclude m'
    end.
Proof.
  intros Hreach Hpass.
  destruct (while_loop_reaches _ _ Hreach (2 * length instrs + 1))
    as (fuel & _ & Hfuel & Heq); [unfold walk_measure; simpl; lia | lia |].
  unfold run_parse, bind at 1. rewrite Heq.
  destruct fuel as [|fuel]; [lia|].
  simpl. unfold bind at 1. rewrite Hpass. by destruct f.
Qed.

(** *** The cases in which the walk gives up *)

Lemma pass_current m i :
  current m i ->
  pass rt closure m =
    (let! f := step rt closure i in
     match f with
     | Next => idx_add 1 >> ret None
     | Break => ret (Some Break)
     | Return v => ret (Some (Return v))
     end) m.
Proof.
  intros [Hlt Hi]. unfold pass, bind at 1 2, get_idx, get_instructions.
  apply Z.ltb_lt in Hlt. rewrite Hlt.
  unfold bind at 1, instructions_get. by rewrite Hi.
Qed.

Lemma step_unsupported i m :
  supported (opname i) = false -> step rt closure i m = Some (Ok (Return VNone), m).
Proof.
  unfold supported. intros H.
  repeat (apply orb_false_elim in H; destruct H as [H ?]).
  unfold step, deref_is_data.
  assert (String.eqb (opname i) "LOAD_DEREF" = false) as ->.
  { match goal with H : supported_load _ = false |- _ =>
      unfold supported_load in H; by apply orb_false_elim in H as [_ ?] end. }
  unfold bind at 1, ret at 1.
  by repeat match goal with H : _ = false |- _ => rewrite H; clear H end.
Qed.

Lemma startswith_inv o prefix :
  startswith o prefix = true -> exists rest, o = prefix +:+ rest.
Proof.
  unfold startswith. destruct (drop_prefix prefix o) as [rest|] eqn:E; [|done].
  intros _. exists rest. revert o E.
  induction prefix as [|a prefix IH]; intros o E; simpl in *; [by simplify_eq|].
  destruct o as [|b o]; [done|].
  destruct (Ascii.eqb a b) eqn:Hab; [|done].
  apply Ascii.eqb_eq in Hab as ->.
  change (String b o = String b (prefix +:+ rest)). f_equal. by apply IH.
Qed.

Lemma step_unknown_operator i s m :
  is_operator (opname i) = true ->
  mnemonic i = VStr s -> _CommandTable !! s = None ->
  step rt closure i m = Some (Ok (Return VNone), m).
Proof.
  intros Hop Hmn Hs.
  assert (Hother :
    String.eqb (opname i) "RETURN_VALUE" = false /\
    String.eqb (opname i) "LOAD_CONST" = false /\
    String.eqb (opname i) "LOAD_FAST" = false /\
    is_build_sequence (opname i) = false /\
    String.eqb (opname i) "BUILD_MAP" = false /\
    String.eqb (opname i) "BUILD_CONST_KEY_MAP" = false /\
    String.eqb (opname i) "LOAD_DEREF" = false /\
    supported_load (opname i) = false /\
    is_call (opname i) = false).
  { revert Hop. unfold is_operator.
    destruct (startswith (opname i) "BINARY_") eqn:H1.
    { apply startswith_inv in H1 as [rest ->]. by intros _. }
    destruct (startswith (opname i) "INPLACE_") eqn:H2.
    { apply startswith_inv in H2 as [rest ->]. by intros _. }
    simpl. intros ->%String.eqb_eq. done. }
  destruct Hother as (H1 & H2 & H3 & H4 & H5 & H6 & H7 & H8 & H9).
  unfold step, deref_is_data. rewrite H1, H2, H3, H4, H5, H6, H7.
  unfold bind at 1, ret at 1. rewrite H8, H9, Hop.
  fold (mnemonic i). rewrite Hmn.
  unfold bind, lift, table_lookup.
  change (hashable rt (VStr s)) with true. cbv iota. by rewrite Hs.
Qed.

Lemma pass_gives_up m :
  unsupported_at m \/ unknown_operator_at m ->
  pass rt closure m = Some (Ok (Some (Return VNone)), m).
Proof.
  intros [(i & Hi & Hun)|(i & s & Hi & Hop & Hmn & Hs)];
    rewrite (pass_current _ _ Hi); unfold bind.
  - by rewrite step_unsupported.
  - by rewrite (step_unknown_operator _ s).
Qed.

Lemma pass_terminal m :
  terminal m -> pass rt closure m = Some (Ok (Some Break), m).
Proof.
  intros [Hge|(Hcs & i & Hi & Ho)].
  - unfold pass, bind, get_idx, get_instructions.
    by apply Z.ltb_nlt in Hge as ->.
  - rewrite (pass_current _ _ Hi). unfold bind at 1, step.
    rewrite Ho. simpl. unfold bind at 1, get_conditions. by rewrite Hcs.
Qed.

(** The three ways in which the function comes to return [None]. *)
Lemma parse_gives_None instrs m :
  reaches rt closure (Machine instrs [] [] 0) m ->
  unsupported_at m \/ unknown_operator_at m \/
  (terminal m /\ (conditions m <> [] \/ length (args m) <> 1%nat)) ->
  _parse_instructions rt closure instrs = Some (Ok VNone).
Proof.
  intros Hreach H. unfold _parse_instructions.
  destruct H as [H|[H|[Hterm Hbad]]].
  - by rewrite (run_parse_leaves _ _ _ _ Hreach (pass_gives_up _ (or_introl H))).
  - by rewrite (run_parse_leaves _ _ _ _ Hreach (pass_gives_up _ (or_intror H))).
  - rewrite (run_parse_leaves _ _ _ _ Hreach (pass_terminal _ Hterm)).
    destruct (conclude_spec m) as (v & -> & Hv). simpl. by rewrite Hv.
Qed.

End ParserFacts.

(** ** The parameters of a lambda *)

Lemma str_join_concat sep parts : str_join sep parts = String.concat sep parts.
Proof.
  induction parts as [|p parts IH]; [done|].
  destruct parts as [|q parts]; [done|].
  change (p +:+ sep +:+ str_join sep (q :: parts) =
          p +:+ sep +:+ String.concat sep (q :: parts)).
  by rewrite IH.
Qed.

(** The names of the parameters, each between single quotes, joined by a
    comma and a space; "no arguments" when there is none. *)
Lemma describe_params_text var_names :
  describe_params var_names =
    match var_names with
    | [] => "no arguments"
    | _ => String.concat ", " (map (fun x => "'" +:+ x +:+ "'") var_names)
    end.
Proof.
  unfold describe_params. rewrite str_join_concat.
  destruct var_names as [|x [|y var_names]]; reflexivity.
Qed.

(** ** The reconstructor *)

Section Reconstructor.
Context (rt : Runtime) (closure : closure_vars).

(** For every instruction stream [_parse_instructions] comes to an end: it
    returns a value (possibly [None]) or raises.  What it raises is an
    [IndexError], a [TypeError], or what attribute access or signature
    binding raised.  An opcode outside the vocabulary, or an operator whose
    mnemonic is not in the table, makes it return [None] as soon as the walk
    comes to it. *)
Theorem parse_instructions_completes instrs :
  (exists r, _parse_instructions rt closure instrs = Some r /\
             forall e, r = Raise e -> propagated rt e) /\
  (forall m, reaches rt closure (Machine instrs [] [] 0) m ->
             unsupported_at m \/ unknown_operator_at m ->
             _parse_instructions rt closure instrs = Some (Ok VNone)).
Proof.
  split.
  - destruct (run_parse_total rt closure instrs) as (r & m & Hrun & Hr).
    exists r. unfold _parse_instructions. rewrite Hrun. done.
  - intros m Hreach H. apply (parse_gives_None rt closure instrs m Hreach).
    tauto.
Qed.

(** C4.  When the walk comes to an opcode outside the vocabulary, to an
    operator whose mnemonic is not in the Operator Table, or leaves the loop
    with pending conditions or with other than one value on the operand
    stack, [_parse_instructions] returns [None]; and [_trace_value] then
    renders the lambda as "a lambda function passing " followed by the
    names of its parameters, each between single quotes and joined by a
    comma and a space, or by "no arguments" when it has none; there is no
    "to:" clause, and the reconstructor was called once. *)
Theorem parse_failure_falls_back instrs m var_names depth wrap_str include_id :
  reaches rt closure (Machine instrs [] [] 0) m ->
  unsupported_at m \/ unknown_operator_at m \/
  (terminal m /\ (conditions m <> [] \/ length (args m) <> 1%nat)) ->
  _parse_instructions rt closure instrs = Some (Ok VNone) /\
  _trace_value rt (S depth) (VLambda var_names instrs closure) wrap_str include_id =
    Some (Ok ("a lambda function passing " +:+
              match var_names with
              | [] => "no arguments"
              | _ => String.concat ", " (map (fun x => "'" +:+ x +:+ "'") var_names)
              end), 1%nat).
Proof.
  intros Hreach H.
  pose proof (parse_gives_None rt closure instrs m Hreach H) as Hnone.
  split; [done|]. rewrite <- describe_params_text. simpl. by rewrite Hnone.
Qed.

(** C5.  The stream of [lambda x, y: x if x > y else y] is reconstructed as
    the condition with left branch [x], right branch [y] and predicate
    [x > y], which is rendered as "x if x > y else y". *)
Theorem ternary_reconstruction depth wrap_str include_id :
  _parse_instructions rt closure ternary_stream =
    Some (Ok (VCondition (VVarWrap (VStr "x")) (VVarWrap (VStr "y"))
                (VCommand (VVarWrap (VStr "x")) (VVarWrap (VStr "y")) ">"))) /\
  _trace_value rt (3 + depth)
    (VCondition (VVarWrap (VStr "x")) (VVarWrap (VStr "y"))
       (VCommand (VVarWrap (VStr "x")) (VVarWrap (VStr "y")) ">"))
    wrap_str include_id = Some (Ok "x if x > y else y", 0%nat).
Proof. split; [vm_compute; reflexivity | reflexivity]. Qed.

(** C9.  The call leaves the caller's list as it was, whether it returns or
    raises, and so every list the store had; its result is that of the walk
    over the elements of the caller's list. *)
Theorem parse_leaves_caller_list (store : gmap positive (list instruction)) caller l :
  store !! caller = Some l ->
  exists r store',
    _parse_instructions_at rt closure store caller = Some (r, store') /\
    store' !! caller = Some l /\
    (forall p l', store !! p = Some l' -> store' !! p = Some l') /\
    _parse_instructions rt closure l = Some r.
Proof.
  intros Hl. unfold _parse_instructions_at, _parse_instructions.
  rewrite lookup_total_insert_eq, (lookup_total_correct _ _ _ Hl).
  destruct (run_parse_total rt closure l) as (r & m & -> & _).
  assert (Hfresh : forall p l', store !! p = Some l' -> fresh (dom store) <> p).
  { intros p l' Hp <-. apply (is_fresh (dom store)), elem_of_dom. by eexists. }
  exists r, (<[fresh (dom store) := instructions m]> (<[fresh (dom store) := l]> store)).
  split_and!; [done| |  |done].
  - rewrite !lookup_insert_ne by eauto. done.
  - intros p l' Hp. rewrite !lookup_insert_ne by eauto. done.
Qed.

End Reconstructor.

(** The working copy is where the excisions show: after the walk over the
    ternary stream two instructions are left of it, and eight in the
    caller's list. *)
Example ternary_working_copy :
  match _parse_instructions_at simple_runtime no_scope
          {[1%positive := ternary_stream]} 1%positive with
  | Some (_, store') =>
      (length <$> store' !! 1%positive, length <$> store' !! 2%positive)
  | None => (None, None)
  end = (Some 8%nat, Some 2%nat).
Proof. vm_compute. reflexivity. Qed.

(** The other two scenarios of reconstruction: an addition, and a call with a
    keyword argument of a function reached through an attribute. *)
Example increment_reconstruction :
  _parse_instructions simple_runtime no_scope increment_stream
    = Some (Ok (VCommand (VVarWrap (VStr "x")) (VInt 1) "+")) /\
  _trace_value simple_runtime 10 (VLambda ["x"] increment_stream no_scope) true true
    = Some (Ok "a lambda function passing 'x' to: x + 1", 1%nat).
Proof. split; vm_compute; reflexivity. Qed.

Example call_reconstruction :
  _parse_instructions simple_runtime foo_scope call_stream
    = Some (Ok (VBoundFn foo_bar (VBoundArguments [("a", VInt 1); ("k", VInt 2)]))) /\
  _trace_value simple_runtime 10
    (VBoundFn foo_bar (VBoundArguments [("a", VInt 1); ("k", VInt 2)])) true true
    = Some (Ok "foo.bar invoked with: {a=1, k=2}", 0%nat).
Proof. split; vm_compute; reflexivity. Qed.

(** An operator with nothing on the operand stack raises [IndexError],
    which reaches the caller. *)
Lemma lone_operator_raises :
  _parse_instructions simple_runtime no_scope [Instruction "BINARY_ADD" VNone] =
    Some (Raise (IndexError "pop from empty list")).
Proof. vm_compute. reflexivity. Qed.

(** So does the bytecode of [lambda x: x.foo(1)], where the method name
    resolves to [None] in the scope and the signature of [None] is asked
    for. *)
Example method_of_argument_raises :
  _parse_instructions simple_runtime no_scope
    [ Instruction "LOAD_FAST" (VStr "x"); Instruction "LOAD_METHOD" (VStr "foo");
      Instruction "LOAD_CONST" (VInt 1); Instruction "CALL_METHOD" (VInt 1);
      Instruction "RETURN_VALUE" VNone ] =
    Some (Raise (TypeError "is not a callable object")).
Proof. vm_compute. reflexivity. Qed.

(** ** Dictionaries of attributes *)

Lemma assoc_set_eq d k v : assoc k (str_dict_set d k v) = Some v.
Proof.
  induction d as [|[k' v'] d IH]; simpl.
  - by rewrite String.eqb_refl.
  - destruct (String.eqb k k') eqn:E; simpl; rewrite E; [done | apply IH].
Qed.

Lemma assoc_set_ne d k k' v : k <> k' -> assoc k (str_dict_set d k' v) = assoc k d.
Proof.
  intros Hne. induction d as [|[k'' v''] d IH]; simpl.
  - by apply String.eqb_neq in Hne as ->.
  - destruct (String.eqb k' k'') eqn:E; simpl.
    + apply String.eqb_eq in E as <-. by apply String.eqb_neq in Hne as ->.
    + by rewrite IH.
Qed.

Lemma assoc_discard d k k' :
  assoc k (str_dict_discard d k') = if String.eqb k' k then None else assoc k d.
Proof.
  unfold str_dict_discard. induction d as [|[k'' v''] d IH]; simpl.
  - by destruct (String.eqb k' k).
  - destruct (String.eqb k' k'') eqn:E; simpl.
    + rewrite IH. apply String.eqb_eq in E as <-.
      destruct (String.eqb k' k) eqn:E'; [done|].
      rewrite String.eqb_sym in E'. by rewrite E'.
    + destruct (String.eqb k k'') eqn:E'; [|apply IH].
      apply String.eqb_eq in E' as <-. by rewrite E.
Qed.


Lemma getattr_setattr_ne self name name' v :
  name <> name' ->
  assoc name (__dict__ (setattr self name' v)) = assoc name (__dict__ self).
Proof. intros. unfold setattr. simpl. by apply assoc_set_ne. Qed.

Section DecoratorFacts.
Context (rt : Runtime) (recursion_limit : nat).

Lemma discard_all_names state_dict keys :
  exists state,
    discard_all rt state_dict (map VStr keys) = Ok state /\
    forall k, assoc k state = if bool_decide (k ∈ keys) then None else assoc k state_dict.
Proof.
  revert state_dict. induction keys as [|key keys IH]; intros state_dict; simpl.
  - exists state_dict. split; [done|]. intros k. repeat case_bool_decide; try done; set_solver.
  - destruct (IH (str_dict_discard state_dict key)) as (state & -> & Hstate).
    exists state. split; [done|]. intros k. rewrite Hstate, assoc_discard.
    destruct (String.eqb key k) eqn:E.
    + apply String.eqb_eq in E as ->. repeat case_bool_decide; try done; set_solver.
    + apply String.eqb_neq in E.
      repeat case_bool_decide; try done; exfalso; rewrite ?elem_of_cons in *; intuition congruence.
Qed.

Lemma restrict_present state_dict whitelist acc :
  (forall k, k ∈ whitelist -> is_Some (assoc k state_dict)) ->
  exists state,
    restrict state_dict whitelist acc = Ok state /\
    forall k, assoc k state = if bool_decide (k ∈ whitelist) then assoc k state_dict else assoc k acc.
Proof.
  revert acc. induction whitelist as [|key whitelist IH]; intros acc Hall; simpl.
  - exists acc. split; [done|]. intros k. repeat case_bool_decide; try done; set_solver.
  - destruct (Hall key) as [v Hv]; [set_solver|]. rewrite Hv.
    destruct (IH (str_dict_set acc key v)) as (state & -> & Hstate); [set_solver|].
    exists state. split; [done|]. intros k. rewrite Hstate.
    destruct (decide (k = key)) as [->|Hne].
    + rewrite assoc_set_eq. repeat case_bool_decide; try done; set_solver.
    + rewrite assoc_set_ne by done.
      repeat case_bool_decide; try done; exfalso; rewrite ?elem_of_cons in *; intuition congruence.
Qed.

Lemma restrict_missing state_dict whitelist acc :
  (exists k, k ∈ whitelist /\ assoc k state_dict = None) ->
  exists k, k ∈ whitelist /\ assoc k state_dict = None /\
            restrict state_dict whitelist acc = Raise (KeyError k).
Proof.
  revert acc. induction whitelist as [|key whitelist IH]; intros acc (k & Hk & Hnone).
  - set_solver.
  - simpl. destruct (assoc key state_dict) as [v|] eqn:Hv.
    + destruct (IH (str_dict_set acc key v)) as (k' & ? & ? & ?).
      { exists k. split; [|done]. apply elem_of_cons in Hk as [->|?]; [congruence | done]. }
      exists k'. split_and!; [by apply elem_of_cons; right | done..].
    + exists key. split_and!; [by apply elem_of_cons; left | done..].
Qed.

Lemma truthy_str_tuple names : truthy rt (str_tuple names) = nonempty names.
Proof. by destruct names. Qed.

(** What [fe_state] returns for a class decorated with a blacklist, or with
    neither list: the instance dictionary without the names of the blacklist
    and without [_fe_state_whitelist] and [_fe_state_blacklist]. *)
Lemma fe_state_removes_blacklist blacklist self :
  configured [] blacklist self ->
  exists state,
    fe_state rt [] self = Ok state /\
    forall k, assoc k state =
              if bool_decide (k ∈ blacklist ++ bookkeeping) then None
              else assoc k (__dict__ self).
Proof.
  intros [Hwl Hbl]. unfold fe_state. rewrite Hwl, Hbl, truthy_str_tuple. simpl.
  apply discard_all_names.
Qed.

(** The summary which [init] stored is not among the names it removes. *)
Lemma fe_state_keeps_summary blacklist self state :
  configured [] blacklist self ->
  "_fe_traceability_summary" ∉ blacklist ->
  fe_state rt [] self = Ok state ->
  assoc "_fe_traceability_summary" state =
    assoc "_fe_traceability_summary" (__dict__ self).
Proof.
  intros Hconf Hnot Hstate.
  destruct (fe_state_removes_blacklist blacklist self Hconf) as (state' & Heq & Hk).
  rewrite Hstate in Heq. simplify_eq. rewrite Hk.
  case_bool_decide as Hin; [|done].
  apply elem_of_app in Hin as [?|Hin]; [done|].
  unfold bookkeeping in Hin.
  repeat (apply elem_of_cons in Hin as [Hin|Hin]; [discriminate|]).
  by apply elem_of_nil in Hin.
Qed.

(** C8, as amended.  For a class decorated with a non-empty whitelist and
    an instance on which the [init] of that class has stored its lists (the
    instance is [configured]: [_fe_state_whitelist] is the whitelist of the
    class and [_fe_state_blacklist] the two names of the lists): [fe_state]
    of an instance which has every whitelisted name returns the mapping of
    exactly the whitelisted names other than [_fe_state_whitelist] and
    [_fe_state_blacklist] to their values on the instance; when a
    whitelisted name is missing, it raises [KeyError] for a missing
    whitelisted name.  An instance of a subclass decorated again carries
    the lists of the subclass and is not such an instance. *)
Theorem fe_state_restricts_to_whitelist whitelist self :
  whitelist <> [] ->
  configured whitelist [] self ->
  ((forall k, k ∈ whitelist -> is_Some (assoc k (__dict__ self))) ->
   exists state,
     fe_state rt whitelist self = Ok state /\
     forall k, assoc k state =
               if bool_decide (k ∈ whitelist /\ k ∉ bookkeeping)
               then assoc k (__dict__ self) else None) /\
  ((exists k, k ∈ whitelist /\ assoc k (__dict__ self) = None) ->
   exists k, k ∈ whitelist /\ assoc k (__dict__ self) = None /\
             fe_state rt whitelist self = Raise (KeyError k)).
Proof.
  intros Hne [Hwl Hbl]. unfold fe_state. rewrite Hwl, Hbl, truthy_str_tuple.
  assert (nonempty whitelist = true) as -> by by destruct whitelist.
  split.
  - intros Hall.
    destruct (restrict_present (__dict__ self) whitelist [] Hall) as (restricted & -> & Hr).
    simpl. destruct (discard_all_names restricted bookkeeping) as (state & Hstate & Hk).
    exists state. split; [done|]. intros k. rewrite Hk, Hr.
    repeat case_bool_decide; try done; tauto.
  - intros Hmiss.
    destruct (restrict_missing (__dict__ self) whitelist [] Hmiss) as (k & ? & ? & ->).
    by exists k.
Qed.

End DecoratorFacts.

(** ** The summary and the decoration *)

Section SummaryFacts.
Context (rt : Runtime) (recursion_limit : nat).

(** When the instance has no summary yet and the prologue of [init]
    succeeds, the instance has got one, a string. *)
Lemma init_prologue_caches whitelist blacklist base_init self args kwargs self' n :
  hasattr self "_fe_traceability_summary" = false ->
  init_prologue rt recursion_limit whitelist blacklist base_init self args kwargs
    = Some (Ok self', n) ->
  exists summary,
    assoc "_fe_traceability_summary" (__dict__ self') = Some (VStr summary).
Proof.
  intros Hno. unfold init_prologue.
  set (self1 := if hasattr self "_fe_state_whitelist" then self else _).
  set (self2 := if hasattr self1 "_fe_state_blacklist" then self1 else _).
  assert (hasattr self2 "_fe_traceability_summary" = false) as ->.
  { unfold hasattr in *. subst self2 self1.
    repeat case_match; simplify_eq; rewrite ?getattr_setattr_ne in * by done; congruence. }
  unfold tbind, tlift, tret, traise. intros H.
  repeat (case_match; simplify_eq).
  eexists. unfold setattr. simpl. apply assoc_set_eq.
Qed.


(** C7.  With a non-empty whitelist and a non-empty blacklist the decorator
    raises [ValueError] when it is called, so that no decorated class and
    no instance of one comes to be; with an empty whitelist or an empty
    blacklist it returns the function which decorates the class. *)
Theorem traceable_rejects_both whitelist blacklist :
  (as_tuple whitelist <> [] -> as_tuple blacklist <> [] ->
   traceable rt recursion_limit whitelist blacklist
     = Raise (ValueError "Traceable objects may specify a whitelist or a blacklist, but not both")) /\
  (whitelist = Tuple [] \/ blacklist = Tuple [] ->
   traceable rt recursion_limit whitelist blacklist
     = Ok (make_traceable rt recursion_limit (as_tuple whitelist) (as_tuple blacklist))).
Proof.
  unfold traceable. split.
  - intros Hw Hb. by destruct (as_tuple whitelist), (as_tuple blacklist).
  - intros [->| ->]; simpl; [done|]. by destruct (as_tuple whitelist).
Qed.

(** C10.  A string given for the whitelist or for the blacklist stands for
    the tuple of that one string: the decorator, and so the decorated class
    with its constructor, [fe_summary] and [fe_state], or the error, is the
    same. *)
Theorem traceable_bare_string s other :
  traceable rt recursion_limit (Str s) other = traceable rt recursion_limit (Tuple [s]) other /\
  traceable rt recursion_limit other (Str s) = traceable rt recursion_limit other (Tuple [s]).
Proof. split; reflexivity. Qed.

End SummaryFacts.

(** ** The scenarios *)

Lemma string_app_assoc (a b c : string) : (a +:+ b) +:+ c = a +:+ b +:+ c.
Proof.
  induction a as [|x a IH]; [done|].
  change (String x ((a +:+ b) +:+ c) = String x (a +:+ b +:+ c)). by rewrite IH.
Qed.

(** C2, as amended.  [Widget(name="w", count=3)], for the decorated class
    [Widget] of a module [modname], has the summary "This experiment used an
    instance of modname.Widget invoked with: {name='w', count=3}". *)
Theorem widget_summary_names_instance modname :
  widget_summary modname =
    Some (Ok ("This experiment used an instance of " +:+ modname
              +:+ ".Widget invoked with: {name='w', count=3}")).
Proof. cbv -[String.append]. rewrite !string_app_assoc. vm_compute. reflexivity. Qed.

(** C2, as stated, fails: the summary of the instance names it as "an
    instance of __main__.Widget", not as "Widget". *)
Lemma widget_summary_differs :
  widget_summary "__main__" =
    Some (Ok "This experiment used an instance of __main__.Widget invoked with: {name='w', count=3}") /\
  String.eqb
    "This experiment used an instance of __main__.Widget invoked with: {name='w', count=3}"
    "This experiment used Widget invoked with: {name='w', count=3}" = false.
Proof. split; vm_compute; reflexivity. Qed.

(** C3.  For the class decorated with the blacklist [("secret",)], the state
    of an instance which has the attribute [secret] leaves out [secret],
    [_fe_state_whitelist] and [_fe_state_blacklist], but has the attribute
    [_fe_traceability_summary], which the constructor stored on the
    instance as well. *)
Theorem widget_state_has_summary :
  widget_state [] ["secret"] =
    Some (Ok [ ("_fe_traceability_summary",
                VStr "an instance of __main__.Widget invoked with: {name='w', count=3}");
               ("name", VStr "w"); ("count", VInt 3) ]).
Proof. vm_compute. reflexivity. Qed.

(** C8, as stated, fails: with the whitelist [("_fe_state_whitelist",)] the
    state is empty, though the instance has the attribute. *)
Lemma whitelisted_bookkeeping_name_is_removed :
  widget_state ["_fe_state_whitelist"] [] = Some (Ok []).
Proof. vm_compute. reflexivity. Qed.

(** *** Instances of the theorems *)

Lemma parse_instructions_completes_witness :
  _parse_instructions simple_runtime no_scope negation_stream = Some (Ok VNone).
Proof.
  apply (proj2 (parse_instructions_completes simple_runtime no_scope negation_stream)
           (Machine negation_stream [] [VVarWrap (VStr "x")] 1)).
  - eapply reaches_pass; [vm_compute; reflexivity | apply reaches_here].
  - left. exists (Instruction "UNARY_NEGATIVE" VNone).
    split; [split; [reflexivity | vm_compute; reflexivity] | vm_compute; reflexivity].
Defined.

Lemma parse_failure_falls_back_witness :
  (_parse_instructions simple_runtime no_scope negation_stream = Some (Ok VNone) /\
   _trace_value simple_runtime 1 (VLambda ["x"; "y"] negation_stream no_scope) true true =
     Some (Ok "a lambda function passing 'x', 'y'", 1%nat)) /\
  (_parse_instructions simple_runtime no_scope
     [Instruction "LOAD_GLOBAL" (VStr "x"); Instruction "UNARY_NEGATIVE" VNone;
      Instruction "RETURN_VALUE" VNone] = Some (Ok VNone) /\
   _trace_value simple_runtime 1
     (VLambda []
        [Instruction "LOAD_GLOBAL" (VStr "x"); Instruction "UNARY_NEGATIVE" VNone;
         Instruction "RETURN_VALUE" VNone] no_scope) true true =
     Some (Ok "a lambda function passing no arguments", 1%nat)).
Proof.
  split.
  - apply (parse_failure_falls_back simple_runtime no_scope negation_stream
             (Machine negation_stream [] [VVarWrap (VStr "x")] 1) ["x"; "y"] 0 true true).
    + eapply reaches_pass; [vm_compute; reflexivity | apply reaches_here].
    + left. exists (Instruction "UNARY_NEGATIVE" VNone).
      split; [split; [reflexivity | vm_compute; reflexivity] | vm_compute; reflexivity].
  - apply (parse_failure_falls_back simple_runtime no_scope
             [Instruction "LOAD_GLOBAL" (VStr "x"); Instruction "UNARY_NEGATIVE" VNone;
              Instruction "RETURN_VALUE" VNone]
             (Machine
                [Instruction "LOAD_GLOBAL" (VStr "x"); Instruction "UNARY_NEGATIVE" VNone;
                 Instruction "RETURN_VALUE" VNone] [] [VNone] 1) [] 0 true true).
    + eapply reaches_pass; [vm_compute; reflexivity | apply reaches_here].
    + left. exists (Instruction "UNARY_NEGATIVE" VNone).
      split; [split; [reflexivity | vm_compute; reflexivity] | vm_compute; reflexivity].
Defined.

Lemma parse_leaves_caller_list_witness :
  exists r store',
    _parse_instructions_at simple_runtime no_scope {[1%positive := ternary_stream]} 1%positive
      = Some (r, store') /\
    store' !! 1%positive = Some ternary_stream /\
    (forall p l', ({[1%positive := ternary_stream]} : gmap positive (list instruction)) !! p = Some l' ->
                  store' !! p = Some l') /\
    _parse_instructions simple_runtime no_scope ternary_stream = Some r.
Proof.
  apply (parse_leaves_caller_list simple_runtime no_scope
           {[1%positive := ternary_stream]} 1%positive ternary_stream).
  apply lookup_singleton_eq.
Defined.


Lemma traceable_rejects_both_witness :
  traceable simple_runtime 10 (Str "a") (Tuple ["b"; "c"])
    = Raise (ValueError "Traceable objects may specify a whitelist or a blacklist, but not both") /\
  traceable simple_runtime 10 (Tuple []) (Str "b")
    = Ok (make_traceable simple_runtime 10 [] ["b"]).
Proof.
  split.
  - apply (proj1 (traceable_rejects_both simple_runtime 10 (Str "a") (Tuple ["b"; "c"])));
      discriminate.
  - apply (proj2 (traceable_rejects_both simple_runtime 10 (Tuple []) (Str "b"))).
    left. reflexivity.
Defined.

(** An instance with the whitelist [("name",)]: its state is the one entry. *)
Lemma fe_state_restricts_to_whitelist_witness :
  exists state,
    fe_state simple_runtime ["name"]
      (Instance "__main__" "Widget" 94342
         [ ("_fe_state_whitelist", str_tuple ["name"]);
           ("_fe_state_blacklist", str_tuple bookkeeping);
           ("name", VStr "w"); ("count", VInt 3) ]) = Ok state /\
    forall k, assoc k state =
              if bool_decide (k ∈ ["name"] /\ k ∉ bookkeeping)
              then assoc k [ ("_fe_state_whitelist", str_tuple ["name"]);
                             ("_fe_state_blacklist", str_tuple bookkeeping);
                             ("name", VStr "w"); ("count", VInt 3) ]
              else None.
Proof.
  apply (proj1 (fe_state_restricts_to_whitelist simple_runtime ["name"]
                  (Instance "__main__" "Widget" 94342
                     [ ("_fe_state_whitelist", str_tuple ["name"]);
                       ("_fe_state_blacklist", str_tuple bookkeeping);
                       ("name", VStr "w"); ("count", VInt 3) ])
                  ltac:(discriminate) ltac:(split; reflexivity))).
  intros k ->%list_elem_of_singleton. by eexists.
Defined.

(** * Further properties *)

(** ** The value tracer *)

Section TracerFacts.
Context (rt : Runtime).


(** A computation of the tracer which does not call the reconstructor. *)
Definition silent {A} (c : T A) : Prop :=
  forall r n, c = Some (r, n) -> n = 0%nat.

Lemma silent_tret {A} (a : A) : silent (tret a).
Proof. by intros r n [= _ <-]. Qed.

Lemma silent_tbind {A B} (c : T A) (k : A -> T B) :
  silent c -> (forall a, silent (k a)) -> silent (tbind c k).
Proof.
  intros Hc Hk r n. unfold tbind.
  destruct c as [[[a|e] n1]|]; [| |done].
  - rewrite (Hc _ _ eq_refl). specialize (Hk a).
    destruct (k a) as [[r2 n2]|]; [|done].
    intros [= _ <-]. apply (Hk _ _ eq_refl).
  - intros [= _ <-]. apply (Hc _ _ eq_refl).
Qed.

Lemma silent_tmap {A B} (f : A -> T B) l :
  (forall x, x ∈ l -> silent (f x)) -> silent (tmap f l).
Proof.
  induction l as [|x l IH]; intros Hf; simpl; [apply silent_tret|].
  apply silent_tbind; [apply Hf, list_elem_of_here|]. intros y.
  apply silent_tbind; [|intros; apply silent_tret].
  apply IH. intros z Hz. by apply Hf, list_elem_of_further.
Qed.


(** X2.  Rendering a value in which no lambda occurs never calls
    [_parse_instructions]. *)
Theorem lambda_free_never_reconstructs depth v wrap_str include_id :
  lambda_free v = true ->
  match _trace_value rt depth v wrap_str include_id with
  | Some (_, n) => n = 0%nat
  | None => True
  end.
Proof.
  intros Hfree.
  enough (silent (_trace_value rt depth v wrap_str include_id)) as Hs.
  { destruct (_trace_value rt depth v wrap_str include_id) as [[r n]|] eqn:E; [|done].
    by apply (Hs r n). }
  revert v wrap_str include_id Hfree.
  induction depth as [|depth IH']; intros v wrap_str include_id Hfree; [done|].
  assert (Hlist : forall xs w i,
            forallb lambda_free xs = true ->
            silent (tmap (fun x => _trace_value rt depth x w i) xs)).
  { intros xs w i Hxs. apply silent_tmap. intros x Hx. apply IH'.
    rewrite forallb_forall in Hxs. by apply Hxs, list_elem_of_In. }
  destruct v; simpl in *; try discriminate;
    repeat match goal with
           | H : _ && _ = true |- _ => apply andb_prop in H as [? ?]
           end;
    try apply silent_tret;
    repeat first
      [ apply silent_tret
      | apply silent_tbind; [solve [eauto] | intros ?] ].
  - (* VDict *)
    apply silent_tbind; [|intros; apply silent_tret].
    apply silent_tmap. intros [k x] Hin. simpl.
    rewrite forallb_forall in Hfree.
    specialize (Hfree (k, x) (proj1 (list_elem_of_In _ _) Hin)).
    simpl in Hfree. apply andb_prop in Hfree as [Hk Hx].
    repeat first
      [ apply silent_tret
      | apply silent_tbind; [solve [eauto] | intros ?] ].
  - (* VBoundArguments *)
    apply IH'. simpl. rewrite forallb_forall in *. intros [k x] Hin.
    apply in_map_iff in Hin as ([k' x'] & [= <- <-] & Hin). simpl.
    by apply (Hfree (k', x')).
  - (* VObject *)
    destruct (assoc _ _); apply silent_tret.
Qed.

End TracerFacts.

(** ** The constructor of a decorated class *)

Lemma string_app_nil_r (a : string) : a +:+ EmptyString = a.
Proof.
  induction a as [|x a IH]; [done|].
  change (String x (a +:+ EmptyString) = String x a). by rewrite IH.
Qed.

Section ConstructorFacts.
Context (rt : Runtime) (recursion_limit : nat).

Lemma prologue_keeps whitelist blacklist base_init self args kwargs self' n :
  init_prologue rt recursion_limit whitelist blacklist base_init self args kwargs
    = Some (Ok self', n) ->
  (forall name v, assoc name (__dict__ self) = Some v ->
                  assoc name (__dict__ self') = Some v) /\
  (forall name, name <> "_fe_state_whitelist" -> name <> "_fe_state_blacklist" ->
                name <> "_fe_traceability_summary" ->
                assoc name (__dict__ self') = assoc name (__dict__ self)) /\
  cls_modname self' = cls_modname self /\ cls_qualname self' = cls_qualname self /\
  cls_id self' = cls_id self.
Proof.
  unfold init_prologue.
  set (self1 := if hasattr self "_fe_state_whitelist" then self else _).
  set (self2 := if hasattr self1 "_fe_state_blacklist" then self1 else _).
  assert (H1 : forall name, (name <> "_fe_state_whitelist" \/ hasattr self "_fe_state_whitelist" = true) ->
                 assoc name (__dict__ self1) = assoc name (__dict__ self)).
  { intros name Hn. subst self1. destruct (hasattr self "_fe_state_whitelist"); [done|].
    destruct Hn as [Hn|Hn]; [|done]. by apply getattr_setattr_ne. }
  assert (H2 : forall name, (name <> "_fe_state_blacklist" \/ hasattr self1 "_fe_state_blacklist" = true) ->
                 assoc name (__dict__ self2) = assoc name (__dict__ self1)).
  { intros name Hn. subst self2. destruct (hasattr self1 "_fe_state_blacklist"); [done|].
    destruct Hn as [Hn|Hn]; [|done]. by apply getattr_setattr_ne. }
  assert (Hc1 : cls_modname self1 = cls_modname self /\ cls_qualname self1 = cls_qualname self /\
                cls_id self1 = cls_id self).
  { subst self1. by destruct (hasattr self "_fe_state_whitelist"). }
  assert (Hc2 : cls_modname self2 = cls_modname self /\ cls_qualname self2 = cls_qualname self /\
                cls_id self2 = cls_id self).
  { subst self2. by destruct (hasattr self1 "_fe_state_blacklist"). }
  assert (Hkeep12 : forall name v, assoc name (__dict__ self) = Some v ->
                      assoc name (__dict__ self2) = Some v).
  { intros name v Hv.
    assert (assoc name (__dict__ self1) = Some v) as Hv1.
    { rewrite H1; [done|]. destruct (decide (name = "_fe_state_whitelist")) as [->|]; [|by left].
      right. unfold hasattr. by rewrite Hv. }
    rewrite H2; [done|]. destruct (decide (name = "_fe_state_blacklist")) as [->|]; [|by left].
    right. unfold hasattr. by rewrite Hv1. }
  destruct (hasattr self2 "_fe_traceability_summary") eqn:Hsum.
  - intros [= <- <-]. split; [exact Hkeep12|].
    split; [|exact Hc2]. intros name ? ? ?. rewrite H2, H1 by tauto. done.
  - unfold tbind, tlift, tret, traise. intros H.
    repeat (case_match; simplify_eq).
    split; [|split; [|exact Hc2]].
    + intros name' val Hval. rewrite getattr_setattr_ne; [by apply Hkeep12|].
      intros ->. apply Hkeep12 in Hval. unfold hasattr in Hsum. by rewrite Hval in Hsum.
    + intros name' ? ? ?. rewrite getattr_setattr_ne by done. rewrite H2, H1 by tauto. done.
Qed.

(** X3.  The prologue of the wrapped constructor never overwrites one of its
    three attributes which the instance already has, and leaves every other
    attribute and the class of the instance as they are: in a chain of
    cooperating constructors the lists of the first wrapper entered stay. *)
Theorem init_prologue_keeps_attributes whitelist blacklist base_init self args kwargs self' n :
  init_prologue rt recursion_limit whitelist blacklist base_init self args kwargs
    = Some (Ok self', n) ->
  (forall name v, assoc name (__dict__ self) = Some v ->
                  assoc name (__dict__ self') = Some v) /\
  (forall name, name <> "_fe_state_whitelist" -> name <> "_fe_state_blacklist" ->
                name <> "_fe_traceability_summary" ->
                assoc name (__dict__ self') = assoc name (__dict__ self)) /\
  cls_modname self' = cls_modname self /\ cls_qualname self' = cls_qualname self /\
  cls_id self' = cls_id self.
Proof. apply prologue_keeps. Qed.

Lemma prologue_configures whitelist blacklist base_init self args kwargs self' n :
  hasattr self "_fe_state_whitelist" = false ->
  hasattr self "_fe_state_blacklist" = false ->
  init_prologue rt recursion_limit whitelist blacklist base_init self args kwargs
    = Some (Ok self', n) ->
  configured whitelist blacklist self'.
Proof.
  intros Hw Hb Hrun.
  destruct (prologue_keeps _ _ _ _ _ _ _ _ Hrun) as (Hkeep & _).
  revert Hrun. unfold init_prologue. rewrite Hw.
  assert (hasattr (setattr self "_fe_state_whitelist" (str_tuple whitelist))
            "_fe_state_blacklist" = false) as ->.
  { unfold hasattr in *. by rewrite getattr_setattr_ne. }
  set (self2 := setattr (setattr self _ _) _ _).
  assert (Hconf : configured whitelist blacklist self2).
  { split; subst self2.
    - rewrite getattr_setattr_ne by done. unfold setattr. simpl. apply assoc_set_eq.
    - unfold setattr at 1. simpl. apply assoc_set_eq. }
  destruct (hasattr self2 "_fe_traceability_summary").
  - by intros [= <- _].
  - unfold tbind, tlift, tret, traise. intros H.
    repeat (case_match; simplify_eq).
    destruct Hconf as [Hcw Hcb].
    split; rewrite getattr_setattr_ne by done; done.
Qed.

(** X4.  On an instance which has neither list yet, the prologue stores the
    lists of the decoration: the whitelist as given, and the blacklist
    followed by [_fe_state_whitelist] and [_fe_state_blacklist]. *)
Theorem init_prologue_configures whitelist blacklist base_init self args kwargs self' n :
  hasattr self "_fe_state_whitelist" = false ->
  hasattr self "_fe_state_blacklist" = false ->
  init_prologue rt recursion_limit whitelist blacklist base_init self args kwargs
    = Some (Ok self', n) ->
  configured whitelist blacklist self'.
Proof. apply prologue_configures. Qed.




(** X6.  When the binding of the arguments has no parameter named [self]
    (the original constructor calls its receiver otherwise), the prologue
    raises [KeyError] for [self] and stores no summary. *)
Theorem init_prologue_needs_self whitelist blacklist base_init self args kwargs :
  hasattr self "_fe_traceability_summary" = false ->
  (forall self0 bound,
     rt_signature_bind rt base_init (VObject self0 :: args)
       (map (fun kv => (VStr (fst kv), snd kv)) kwargs) = Ok bound ->
     assoc "self" bound = None) ->
  exists e,
    init_prologue rt recursion_limit whitelist blacklist base_init self args kwargs
      = Some (Raise e, 0%nat) /\
    (e = KeyError "self" \/
     exists self0, rt_signature_bind rt base_init (VObject self0 :: args)
                     (map (fun kv => (VStr (fst kv), snd kv)) kwargs) = Raise e).
Proof.
  intros Hno Hnoself. unfold init_prologue.
  set (self1 := if hasattr self "_fe_state_whitelist" then self else _).
  set (self2 := if hasattr self1 "_fe_state_blacklist" then self1 else _).
  assert (Hno2 : hasattr self2 "_fe_traceability_summary" = false).
  { unfold hasattr in *. subst self2 self1.
    repeat case_match; simplify_eq; rewrite ?getattr_setattr_ne in * by done; congruence. }
  rewrite Hno2. unfold tbind at 1, tlift.
  destruct (rt_signature_bind rt base_init _ _) as [bound|e] eqn:Hbind.
  - rewrite (Hnoself _ _ Hbind). exists (KeyError "self"). split; [done | by left].
  - exists e. split; [done|]. right. by exists self2.
Qed.

Lemma tbind_ok {A B} (c : T A) (k : A -> T B) b n :
  tbind c k = Some (Ok b, n) ->
  exists a n1 n2, c = Some (Ok a, n1) /\ k a = Some (Ok b, n2) /\ n = (n1 + n2)%nat.
Proof.
  unfold tbind. destruct c as [[[a|e] n1]|]; [|done..].
  destruct (k a) as [[r n2]|] eqn:Hk; [|done].
  intros [= -> <-]. by eexists _, _, _.
Qed.

(** X7.  For [class Derived(Base): pass] decorated without lists, where
    [Base] is decorated with a whitelist: the state of an instance of
    [Derived] is not restricted to the whitelist of [Base].  Its
    constructor stores the empty whitelist first, the constructor of [Base]
    keeps it, and the [fe_state] inherited from [Base] tests the stored
    whitelist before it applies its own. *)
Theorem inherited_whitelist_is_not_applied base whitelist modname name id args kwargs self' n :
  whitelist <> [] ->
  (forall s a k s' n', __init__ base s a k = Some (Ok s', n') ->
     forall nm, nm ∈ bookkeeping -> assoc nm (__dict__ s') = assoc nm (__dict__ s)) ->
  construct
    (make_traceable rt recursion_limit [] []
       (subclass (make_traceable rt recursion_limit whitelist [] base) modname name id))
    args kwargs = Some (Ok self', n) ->
  exists state,
    call_fe_state
      (make_traceable rt recursion_limit [] []
         (subclass (make_traceable rt recursion_limit whitelist [] base) modname name id))
      self' = Ok state /\
    forall k, assoc k state =
              if bool_decide (k ∈ bookkeeping) then None else assoc k (__dict__ self').
Proof.
  intros Hwl Hbase. unfold construct. cbn [__init__ make_traceable subclass].
  unfold init at 1. intros Hrun.
  apply tbind_ok in Hrun as (s1 & n1 & n2 & Hp1 & Hrun & _).
  cbn [__init__ make_traceable subclass] in Hrun. unfold init in Hrun.
  apply tbind_ok in Hrun as (s2 & n3 & n4 & Hp2 & Hrun & _).
  assert (Hc1 : configured [] [] s1).
  { eapply prologue_configures; [| |exact Hp1]; reflexivity. }
  destruct (prologue_keeps _ _ _ _ _ _ _ _ Hp2) as (Hkeep & _).
  assert (Hc : configured [] [] self').
  { destruct Hc1 as [Hw Hb]. split.
    - rewrite (Hbase _ _ _ _ _ Hrun) by (apply elem_of_cons; by left). by apply Hkeep.
    - rewrite (Hbase _ _ _ _ _ Hrun) by (apply elem_of_cons; right; apply elem_of_cons; by left).
      by apply Hkeep. }
  unfold call_fe_state. cbn [fe_state_method make_traceable subclass].
  assert (match fe_state_method base with
          | Some base_func =>
              if nonempty whitelist || nonempty [] then Some (fe_state rt whitelist)
              else Some base_func
          | None => Some (fe_state rt whitelist)
          end = Some (fe_state rt whitelist)) as ->.
  { destruct (fe_state_method base); [|done]. by destruct whitelist. }
  cbn [nonempty orb].
  destruct (fe_state_removes_blacklist rt [] self' Hc) as (state & Hstate & Hk).
  exists state. split; [|exact Hk].
  rewrite <- Hstate. destruct Hc as [Hw Hb]. unfold fe_state. by rewrite Hw.
Qed.

End ConstructorFacts.

(** ** The case of [LOAD_DEREF] *)

Section DerefFacts.
Context (rt : Runtime) (closure : closure_vars).

Lemma list_getitem_in_range {A} (l : list A) i :
  0 <= i < Z.of_nat (length l) -> exists x, list_getitem l i = Ok x.
Proof.
  intros Hi. unfold list_getitem, py_index.
  destruct (i <? 0) eqn:Hneg; [lia|].
  assert ((0 <=? i) && (i <? Z.of_nat (length l)) = true) as ->.
  { apply andb_true_intro. split; [apply Z.leb_le | apply Z.ltb_lt]; lia. }
  destruct (lookup_lt_is_Some_2 l (Z.to_nat i)) as [x Hx]; [lia|].
  exists x. by rewrite Hx.
Qed.

(** X8.  For a [LOAD_DEREF] which is not the last instruction, the test of
    the first case (is the variable callable, does an attribute load
    follow) does not change what the pass does: in either case the resolved
    variable, with the attribute loads which follow folded into it, is
    pushed. *)
Theorem load_deref_pushes_resolved i m :
  opname i = "LOAD_DEREF" ->
  list_getitem (instructions m) (idx m) = Ok i ->
  0 <= idx m -> idx m + 1 < Z.of_nat (length (instructions m)) ->
  step rt closure i m =
    (let! function := lift (resolve rt closure (argval i)) in
     let! function' := look_ahead rt function in
     args_append function' >> ret Next) m.
Proof.
  intros Ho Hi Hidx Hnext.
  destruct (list_getitem_in_range (instructions m) (idx m + 1)) as [next Hn]; [lia|].
  unfold step, deref_is_data. rewrite Ho.
  cbn [String.eqb Ascii.eqb Bool.eqb is_build_sequence orb andb].
  change (supported_load "LOAD_DEREF") with true. cbv iota.
  unfold _deref_is_callable.
  destruct (resolve rt closure (argval i)) as [deref|e] eqn:Hres; [|reflexivity].
  assert (Hgeneral :
    (let! i0 := get_idx in
     let! current := instructions_get i0 in
     let! function := lift (resolve rt closure (argval current)) in
     let! function' := look_ahead rt function in
     args_append function' >> ret Next) m =
    (let! function' := look_ahead rt deref in args_append function' >> ret Next) m).
  { cbv [bind get_idx instructions_get lift]. rewrite Hi. cbv iota beta.
    by rewrite Hres. }
  destruct (is_callable rt deref) eqn:Hcall.
  - cbv [bind lift ret] in *. cbv iota beta. exact Hgeneral.
  - destruct (is_attr_load (opname next)) eqn:Hattr.
    + cbv [bind lift ret get_idx instructions_get] in *. rewrite Hn, Hattr in *.
      cbv iota beta. simpl negb. cbv iota. exact Hgeneral.
    + cbv [bind lift ret get_idx instructions_get get_instructions look_ahead].
      rewrite Hn, Hattr. cbv iota beta. simpl negb. cbv iota.
      cbn [fold_attributes]. cbv [bind lift ret get_idx instructions_get get_instructions].
      apply Z.ltb_lt in Hnext. rewrite Hnext, Hn, Hattr. reflexivity.
Qed.

End DerefFacts.

(** ** Reconstruction of expressions *)

Section ExpressionFacts.
Context (rt : Runtime) (closure : closure_vars).

Local Abbreviation reaches := (reaches rt closure).
Local Abbreviation pass := (pass rt closure).
Local Abbreviation step := (step rt closure).

Lemma expr_ind (P : expr -> Prop) :
  (forall v, P (Const v)) ->
  (forall name, P (Local name)) ->
  (forall o l r, P l -> P r -> P (Operation o l r)) ->
  (forall es, Forall P es -> P (ListDisplay es)) ->
  (forall es, Forall P es -> P (TupleDisplay es)) ->
  forall e, P e.
Proof.
  intros Hc Hl Ho Hlist Htuple. fix IH 1. intros [v|name|o l r|es|es].
  - apply Hc.
  - apply Hl.
  - apply Ho; apply IH.
  - apply Hlist. induction es as [|e es IHes]; constructor; [apply IH | apply IHes].
  - apply Htuple. induction es as [|e es IHes]; constructor; [apply IH | apply IHes].
Qed.

Lemma reaches_trans m1 m2 m3 : reaches m1 m2 -> reaches m2 m3 -> reaches m1 m3.
Proof. induction 1; [done|]. intros. eapply reaches_pass; eauto. Qed.

Lemma reaches_one m m' : pass m = Some (Ok None, m') -> reaches m m'.
Proof. intros. eapply reaches_pass; [done | apply reaches_here]. Qed.

Lemma list_getitem_middle {A} (pre rest : list A) x :
  list_getitem (pre ++ x :: rest) (Z.of_nat (length pre)) = Ok x.
Proof.
  unfold list_getitem, py_index.
  assert ((Z.of_nat (length pre) <? 0) = false) as -> by (apply Z.ltb_ge; lia).
  assert ((0 <=? Z.of_nat (length pre))
          && (Z.of_nat (length pre) <? Z.of_nat (length (pre ++ x :: rest))) = true) as ->.
  { rewrite length_app. simpl length. apply andb_true_intro.
    split; [apply Z.leb_le | apply Z.ltb_lt]; lia. }
  rewrite Nat2Z.id. by rewrite list_lookup_middle.
Qed.

Lemma list_pop_at_middle {A} (pre rest : list A) x :
  list_pop_at (pre ++ x :: rest) (Z.of_nat (length pre)) = Ok (pre ++ rest).
Proof.
  unfold list_pop_at, py_index.
  assert ((Z.of_nat (length pre) <? 0) = false) as -> by (apply Z.ltb_ge; lia).
  assert ((0 <=? Z.of_nat (length pre))
          && (Z.of_nat (length pre) <? Z.of_nat (length (pre ++ x :: rest))) = true) as ->.
  { rewrite length_app. simpl length. apply andb_true_intro.
    split; [apply Z.leb_le | apply Z.ltb_lt]; lia. }
  rewrite Nat2Z.id, delete_middle. by destruct pre.
Qed.

Lemma list_pop_snoc {A} (l : list A) x : list_pop (l ++ [x]) = Some (l, x).
Proof. unfold list_pop. by rewrite reverse_snoc, reverse_involutive. Qed.

Lemma current_at_position pre i rest conds stack :
  current (at_position pre (i :: rest) conds stack) i.
Proof.
  split; simpl.
  - rewrite length_app. simpl. lia.
  - apply list_getitem_middle.
Qed.

Lemma at_position_next pre i rest conds stack :
  Machine (pre ++ i :: rest) conds stack (Z.of_nat (length pre) + 1) =
  at_position (pre ++ [i]) rest conds stack.
Proof.
  unfold at_position. rewrite <- app_assoc, length_app. simpl. f_equal. lia.
Qed.

Lemma args_pop_snoc ins conds stack v i :
  args_pop (Machine ins conds (stack ++ [v]) i) = Some (Ok v, Machine ins conds stack i).
Proof. unfold args_pop. simpl. by rewrite list_pop_snoc. Qed.

Lemma excise_previous_at pre x rest conds stack :
  excise_previous (at_position (pre ++ [x]) rest conds stack)
    = Some (Ok tt, at_position pre rest conds stack).
Proof.
  unfold excise_previous, bind, get_idx, instructions_pop, idx_add, at_position. simpl.
  rewrite <- app_assoc. simpl.
  replace (Z.of_nat (length (pre ++ [x])) - 1) with (Z.of_nat (length pre))
    by (rewrite length_app; simpl; lia).
  rewrite list_pop_at_middle. simpl. do 3 f_equal. rewrite length_app. simpl. lia.
Qed.

Lemma pass_load_const pre v rest conds stack :
  pass (at_position pre (Instruction "LOAD_CONST" v :: rest) conds stack)
    = Some (Ok None, at_position (pre ++ [Instruction "LOAD_CONST" v]) rest conds (stack ++ [v])).
Proof.
  rewrite (pass_current rt closure _ _ (current_at_position _ _ _ _ _)).
  unfold bind, at_position. simpl. by rewrite at_position_next.
Qed.

Lemma pass_load_fast pre name rest conds stack :
  pass (at_position pre (Instruction "LOAD_FAST" name :: rest) conds stack)
    = Some (Ok None,
            at_position (pre ++ [Instruction "LOAD_FAST" name]) rest conds
              (stack ++ [VVarWrap name])).
Proof.
  rewrite (pass_current rt closure _ _ (current_at_position _ _ _ _ _)).
  unfold bind, at_position. simpl. by rewrite at_position_next.
Qed.

Lemma step_known_operator i s symbol :
  is_operator (opname i) = true ->
  mnemonic i = VStr s -> _CommandTable !! s = Some symbol ->
  step i =
    (let! right' := args_pop in
     excise_previous >>
     let! left' := args_pop in
     excise_previous >>
     args_append (VCommand left' right' symbol) >> ret Next).
Proof.
  intros Hop Hmn Hs.
  assert (Hother :
    String.eqb (opname i) "RETURN_VALUE" = false /\
    String.eqb (opname i) "LOAD_CONST" = false /\
    String.eqb (opname i) "LOAD_FAST" = false /\
    is_build_sequence (opname i) = false /\
    String.eqb (opname i) "BUILD_MAP" = false /\
    String.eqb (opname i) "BUILD_CONST_KEY_MAP" = false /\
    String.eqb (opname i) "LOAD_DEREF" = false /\
    supported_load (opname i) = false /\
    is_call (opname i) = false).
  { revert Hop. unfold is_operator.
    destruct (startswith (opname i) "BINARY_") eqn:H1.
    { apply startswith_inv in H1 as [rest ->]. by intros _. }
    destruct (startswith (opname i) "INPLACE_") eqn:H2.
    { apply startswith_inv in H2 as [rest ->]. by intros _. }
    simpl. intros ->%String.eqb_eq. done. }
  destruct Hother as (H1 & H2 & H3 & H4 & H5 & H6 & H7 & H8 & H9).
  unfold step, deref_is_data. rewrite H1, H2, H3, H4, H5, H6, H7.
  change (bind (ret false) ?k) with (k false). cbv beta iota.
  rewrite H8, H9, Hop. fold (mnemonic i). rewrite Hmn.
  unfold table_lookup. change (hashable rt (VStr s)) with true. cbv iota. rewrite Hs.
  reflexivity.
Qed.

Lemma operator_instruction_known o :
  is_operator (opname (operator_instruction o)) = true /\
  mnemonic (operator_instruction o) = VStr (operator_key o) /\
  _CommandTable !! operator_key o = Some (operator_symbol o).
Proof. destruct o; vm_compute; done. Qed.

Lemma pass_operator pre il ir o rest conds stack vl vr :
  pass (at_position ((pre ++ [il]) ++ [ir]) (operator_instruction o :: rest) conds
          ((stack ++ [vl]) ++ [vr]))
    = Some (Ok None,
            at_position (pre ++ [operator_instruction o]) rest conds
              (stack ++ [VCommand vl vr (operator_symbol o)])).
Proof.
  rewrite (pass_current rt closure _ _ (current_at_position _ _ _ _ _)).
  destruct (operator_instruction_known o) as (Hop & Hmn & Hs).
  rewrite (step_known_operator _ _ _ Hop Hmn Hs).
  unfold bind at 1 2. unfold at_position at 1. rewrite args_pop_snoc.
  unfold bind at 1.
  change (Machine (((pre ++ [il]) ++ [ir]) ++ operator_instruction o :: rest) conds
            (stack ++ [vl]) (Z.of_nat (length ((pre ++ [il]) ++ [ir]))))
    with (at_position ((pre ++ [il]) ++ [ir]) (operator_instruction o :: rest) conds
            (stack ++ [vl])).
  rewrite excise_previous_at.
  unfold bind at 1. unfold at_position at 1. rewrite args_pop_snoc.
  unfold bind at 1.
  change (Machine ((pre ++ [il]) ++ operator_instruction o :: rest) conds stack
            (Z.of_nat (length (pre ++ [il]))))
    with (at_position (pre ++ [il]) (operator_instruction o :: rest) conds stack).
  rewrite excise_previous_at.
  unfold bind, args_append, ret, idx_add, at_position. simpl.
  by rewrite at_position_next.
Qed.

Lemma gather_at vs : forall ins pre rest conds stack acc,
  length ins = length vs ->
  gather (length vs) acc (at_position (pre ++ ins) rest conds (stack ++ vs))
    = Some (Ok (vs ++ acc), at_position pre rest conds stack).
Proof.
  induction vs as [|v vs IH] using rev_ind; intros ins pre rest conds stack acc Hlen.
  - destruct ins; [|done]. simpl. by rewrite !app_nil_r.
  - destruct ins as [|i ins _] using rev_ind; [rewrite length_app in Hlen; simpl in Hlen; lia|].
    rewrite !length_app in Hlen. simpl in Hlen.
    rewrite length_app, Nat.add_comm. simpl.
    rewrite !app_assoc. unfold bind at 1. unfold at_position at 1. rewrite args_pop_snoc.
    unfold bind at 1.
    change (Machine (((pre ++ ins) ++ [i]) ++ rest) conds (stack ++ vs)
              (Z.of_nat (length ((pre ++ ins) ++ [i]))))
      with (at_position ((pre ++ ins) ++ [i]) rest conds (stack ++ vs)).
    rewrite excise_previous_at. rewrite IH by lia. by rewrite <- app_assoc.
Qed.

Lemma pass_build_list pre ins rest conds stack vs :
  length ins = length vs ->
  pass (at_position (pre ++ ins)
          (Instruction "BUILD_LIST" (VInt (Z.of_nat (length vs))) :: rest) conds (stack ++ vs))
    = Some (Ok None,
            at_position (pre ++ [Instruction "BUILD_LIST" (VInt (Z.of_nat (length vs)))])
              rest conds (stack ++ [VList vs])).
Proof.
  intros Hlen. rewrite (pass_current rt closure _ _ (current_at_position _ _ _ _ _)).
  unfold step. cbn [opname argval String.eqb Ascii.eqb Bool.eqb is_build_sequence orb].
  cbv iota. unfold bind at 1 2 3. unfold lift, py_range. rewrite Nat2Z.id.
  rewrite (gather_at vs ins) by done. rewrite app_nil_r.
  unfold bind, args_append, ret, idx_add, at_position. simpl.
  by rewrite at_position_next.
Qed.

Lemma pass_build_tuple pre ins rest conds stack vs :
  length ins = length vs ->
  pass (at_position (pre ++ ins)
          (Instruction "BUILD_TUPLE" (VInt (Z.of_nat (length vs))) :: rest) conds (stack ++ vs))
    = Some (Ok None,
            at_position (pre ++ [Instruction "BUILD_TUPLE" (VInt (Z.of_nat (length vs)))])
              rest conds (stack ++ [VTuple vs])).
Proof.
  intros Hlen. rewrite (pass_current rt closure _ _ (current_at_position _ _ _ _ _)).
  unfold step. cbn [opname argval String.eqb Ascii.eqb Bool.eqb is_build_sequence orb].
  cbv iota. unfold bind at 1 2 3. unfold lift, py_range. rewrite Nat2Z.id.
  rewrite (gather_at vs ins) by done. rewrite app_nil_r.
  unfold bind, args_append, ret, idx_add, at_position. simpl.
  by rewrite at_position_next.
Qed.

(** The walk over the stream of an expression, wherever it stands: the
    instructions of the expression are folded into its last one, and the
    value of the expression is pushed. *)
Lemma walk_expression e : forall pre rest conds stack,
  reaches (at_position pre (compile e ++ rest) conds stack)
          (at_position (pre ++ [root e]) rest conds (stack ++ [denote e])).
Proof.
  induction e as [v|name|o l r IHl IHr|es IHes|es IHes] using expr_ind;
    intros pre rest conds stack.
  - apply reaches_one, pass_load_const.
  - apply reaches_one, pass_load_fast.
  - simpl compile. rewrite <- !app_assoc.
    eapply reaches_trans; [apply IHl|].
    eapply reaches_trans; [apply IHr|].
    apply reaches_one. simpl. apply pass_operator.
  - assert (Hwalk : forall pre stack,
              reaches (at_position pre (concat (map compile es) ++ root (ListDisplay es) :: rest)
                         conds stack)
                      (at_position (pre ++ map root es) (root (ListDisplay es) :: rest) conds
                         (stack ++ map denote es))).
    { generalize (root (ListDisplay es)). intros b.
      induction IHes as [|e es He _ IH]; intros pre' stack'.
      - simpl. rewrite !app_nil_r. apply reaches_here.
      - simpl. rewrite <- app_assoc.
        eapply reaches_trans; [apply He|].
        eapply reaches_trans; [apply IH|].
        rewrite <- !app_assoc. apply reaches_here. }
    simpl compile. rewrite <- app_assoc.
    eapply reaches_trans; [apply Hwalk|].
    apply reaches_one. simpl root.
    rewrite <- (length_map denote es). apply pass_build_list.
    by rewrite !length_map.
  - assert (Hwalk : forall pre stack,
              reaches (at_position pre (concat (map compile es) ++ root (TupleDisplay es) :: rest)
                         conds stack)
                      (at_position (pre ++ map root es) (root (TupleDisplay es) :: rest) conds
                         (stack ++ map denote es))).
    { generalize (root (TupleDisplay es)). intros b.
      induction IHes as [|e es He _ IH]; intros pre' stack'.
      - simpl. rewrite !app_nil_r. apply reaches_here.
      - simpl. rewrite <- app_assoc.
        eapply reaches_trans; [apply He|].
        eapply reaches_trans; [apply IH|].
        rewrite <- !app_assoc. apply reaches_here. }
    simpl compile. rewrite <- app_assoc.
    eapply reaches_trans; [apply Hwalk|].
    apply reaches_one. simpl root.
    rewrite <- (length_map denote es). apply pass_build_tuple.
    by rewrite !length_map.
Qed.

Lemma parse_compiled e a tail :
  _parse_instructions rt closure (compile e ++ Instruction "RETURN_VALUE" a :: tail)
    = Some (Ok (denote e)).
Proof.
  pose proof (walk_expression e [] (Instruction "RETURN_VALUE" a :: tail) [] []) as Hwalk.
  assert (Hterm : terminal
            (at_position ([] ++ [root e]) (Instruction "RETURN_VALUE" a :: tail) [] ([] ++ [denote e]))).
  { right. split; [done|]. eexists. split; [apply current_at_position | done]. }
  unfold _parse_instructions.
  change (compile e ++ Instruction "RETURN_VALUE" a :: tail)
    with ([] ++ compile e ++ Instruction "RETURN_VALUE" a :: tail).
  rewrite (run_parse_leaves rt closure _ _ _ _ Hwalk (pass_terminal rt closure _ Hterm)).
  reflexivity.
Qed.

(** X9.  Round trip.  For every expression built from constants, lambda
    parameters, the operators and comparisons of the Operator Table and
    list and tuple displays, [_parse_instructions] applied to the postfix
    stream of the expression followed by [RETURN_VALUE] returns the model
    of that very expression, in every scope and whatever the runtime; what
    follows the first [RETURN_VALUE] is never read. *)
Theorem postfix_stream_round_trip e a tail :
  _parse_instructions rt closure (compile e ++ Instruction "RETURN_VALUE" a :: tail)
    = Some (Ok (denote e)).
Proof. apply parse_compiled. Qed.

Lemma step_pop_jump target :
  step (Instruction "POP_JUMP_IF_FALSE" target) =
    (let! predicate := args_pop in
     conditions_append (Pending VNone VNone predicate) >>
     excise_previous >>
     ret Next).
Proof. reflexivity. Qed.

Lemma pass_pop_jump pre i target rest conds stack v :
  pass (at_position (pre ++ [i]) (Instruction "POP_JUMP_IF_FALSE" target :: rest) conds
          (stack ++ [v]))
    = Some (Ok None,
            at_position (pre ++ [Instruction "POP_JUMP_IF_FALSE" target]) rest
              (conds ++ [Pending VNone VNone v]) stack).
Proof.
  rewrite (pass_current rt closure _ _ (current_at_position _ _ _ _ _)).
  rewrite step_pop_jump.
  unfold bind at 1 2. unfold at_position at 1. rewrite args_pop_snoc.
  unfold bind at 1, conditions_append. cbn [instructions conditions args idx].
  unfold bind at 1.
  change (Machine ((pre ++ [i]) ++ ?r) ?c ?s (Z.of_nat (length (pre ++ [i]))))
    with (at_position (pre ++ [i]) r c s).
  rewrite excise_previous_at.
  unfold bind, ret, idx_add, at_position. simpl.
  by rewrite at_position_next.
Qed.

Lemma step_return a :
  step (Instruction "RETURN_VALUE" a) =
    (let! cs := get_conditions in
     match list_pop cs with
     | Some (cs', current_condition) =>
         set_conditions cs' >>
         let! arg := args_pop in
         excise_previous >>
         match p_left current_condition with
         | VNone =>
             conditions_append (Pending arg VNone (p_condition current_condition)) >>
             excise_previous >>
             ret Next
         | left' =>
             args_append (VCondition left' arg (p_condition current_condition)) >>
             let! cs'' := get_conditions in
             match cs'' with
             | [] => ret Next
             | _ => idx_add (-1) >> ret Next
             end
         end
     | None => ret Break
     end).
Proof. reflexivity. Qed.

(** [RETURN_VALUE] when the pending condition has no left branch yet: the
    returned value becomes the left branch, and both the instruction of the
    value and the one before it leave the stream. *)
Lemma pass_return_left pre j i a rest conds r c stack v :
  pass (at_position ((pre ++ [j]) ++ [i]) (Instruction "RETURN_VALUE" a :: rest)
          (conds ++ [Pending VNone r c]) (stack ++ [v]))
    = Some (Ok None,
            at_position (pre ++ [Instruction "RETURN_VALUE" a]) rest
              (conds ++ [Pending v VNone c]) stack).
Proof.
  rewrite (pass_current rt closure _ _ (current_at_position _ _ _ _ _)).
  rewrite step_return. unfold at_position at 1.
  unfold bind at 1 2, get_conditions.
  cbn [instructions conditions args idx]. rewrite list_pop_snoc.
  unfold bind at 1, set_conditions. cbn [instructions conditions args idx].
  unfold bind at 1. rewrite args_pop_snoc.
  unfold bind at 1.
  change (Machine (((pre ++ [j]) ++ [i]) ++ ?r) ?c ?s (Z.of_nat (length ((pre ++ [j]) ++ [i]))))
    with (at_position ((pre ++ [j]) ++ [i]) r c s).
  rewrite excise_previous_at. cbn [p_left p_condition].
  unfold bind at 1, conditions_append.
  cbn [at_position instructions conditions args idx].
  unfold bind at 1.
  change (Machine ((pre ++ [j]) ++ ?r) ?c ?s (Z.of_nat (length (pre ++ [j]))))
    with (at_position (pre ++ [j]) r c s).
  rewrite excise_previous_at.
  unfold bind, ret, idx_add, at_position. simpl.
  by rewrite at_position_next.
Qed.

(** [RETURN_VALUE] when the only pending condition has its left branch: the
    returned value is the right branch and the condition is complete. *)
Lemma pass_return_right pre i a rest l r c stack v :
  l <> VNone ->
  pass (at_position (pre ++ [i]) (Instruction "RETURN_VALUE" a :: rest)
          [Pending l r c] (stack ++ [v]))
    = Some (Ok None,
            at_position (pre ++ [Instruction "RETURN_VALUE" a]) rest []
              (stack ++ [VCondition l v c])).
Proof.
  intros Hl.
  rewrite (pass_current rt closure _ _ (current_at_position _ _ _ _ _)).
  rewrite step_return. unfold at_position at 1.
  unfold bind at 1 2, get_conditions.
  cbn [instructions conditions args idx].
  change (list_pop [Pending l r c]) with (Some ([] : list pending, Pending l r c)).
  unfold bind at 1, set_conditions. cbn [instructions conditions args idx].
  unfold bind at 1. rewrite args_pop_snoc.
  unfold bind at 1.
  change (Machine ((pre ++ [i]) ++ ?r) ?c ?s (Z.of_nat (length (pre ++ [i]))))
    with (at_position (pre ++ [i]) r c s).
  rewrite excise_previous_at. cbn [p_left p_condition].
  destruct l; try done;
    unfold bind, args_append, get_conditions, ret, idx_add, at_position; simpl;
    by rewrite at_position_next.
Qed.

Lemma terminal_at_end pre conds stack : terminal (at_position pre [] conds stack).
Proof. left. unfold at_position. simpl. rewrite app_nil_r. lia. Qed.

(** The walk over the stream of a conditional expression, up to the second
    [RETURN_VALUE]: the test and the first branch are held by the pending
    condition, the value of the second branch is on the stack. *)
Lemma walk_ternary c a b target :
  reaches (Machine (compile_ternary c a b target) [] [] 0)
    (at_position [Instruction "RETURN_VALUE" VNone; root b]
       [Instruction "RETURN_VALUE" VNone]
       [Pending (denote a) VNone (denote c)] [denote b]).
Proof.
  unfold compile_ternary.
  eapply reaches_trans; [apply (walk_expression c [] _ [] [])|].
  eapply reaches_trans; [apply reaches_one, (pass_pop_jump [] _ _ _ [] [])|].
  eapply reaches_trans; [apply (walk_expression a)|].
  eapply reaches_trans; [apply reaches_one, (pass_return_left [] _ _ _ _ [] _ _ [])|].
  apply (walk_expression b).
Qed.

(** X10.  For a conditional expression [a if c else b] over such
    expressions whose first branch is not the constant [None], the stream
    [c; POP_JUMP_IF_FALSE; a; RETURN_VALUE; b; RETURN_VALUE] is
    reconstructed as the condition with left branch [a], right branch [b]
    and test [c]; the target of the jump is not read. *)
Theorem conditional_round_trip c a b target :
  denote a <> VNone ->
  _parse_instructions rt closure (compile_ternary c a b target)
    = Some (Ok (VCondition (denote a) (denote b) (denote c))).
Proof.
  intros Ha.
  pose proof (pass_return_right [Instruction "RETURN_VALUE" VNone] (root b) VNone []
                _ VNone (denote c) [] (denote b) Ha) as Hpass.
  pose proof (reaches_trans _ _ _ (walk_ternary c a b target) (reaches_one _ _ Hpass))
    as Hwalk.
  unfold _parse_instructions.
  rewrite (run_parse_leaves rt closure _ _ _ _ Hwalk
             (pass_terminal rt closure _ (terminal_at_end _ _ _))).
  reflexivity.
Qed.

(** X11.  The left branch of a pending condition is recognised as missing
    by being [None]: when the first branch of a conditional expression is
    the constant [None], the second [RETURN_VALUE] takes the second branch
    for the first one, the condition is never completed, and the function
    returns [None] (the lambda is then described by its signature only). *)
Theorem conditional_with_None_branch c b target :
  _parse_instructions rt closure (compile_ternary c (Const VNone) b target)
    = Some (Ok VNone).
Proof.
  pose proof (pass_return_left [] (Instruction "RETURN_VALUE" VNone) (root b) VNone []
                [] VNone (denote c) [] (denote b)) as Hpass.
  pose proof (reaches_trans _ _ _ (walk_ternary c (Const VNone) b target)
                (reaches_one _ _ Hpass)) as Hwalk.
  unfold _parse_instructions.
  rewrite (run_parse_leaves rt closure _ _ _ _ Hwalk
             (pass_terminal rt closure _ (terminal_at_end _ _ _))).
  reflexivity.
Qed.

Lemma compile_plain_head e : forall rest, plain_head (compile e ++ rest).
Proof.
  induction e as [v|name|o l r IHl IHr|es IHes|es IHes] using expr_ind; intros rest.
  - reflexivity.
  - reflexivity.
  - simpl. rewrite <- app_assoc. apply IHl.
  - simpl. destruct IHes as [|e es He _]; [reflexivity|].
    simpl. rewrite <- !app_assoc. apply He.
  - simpl. destruct IHes as [|e es He _]; [reflexivity|].
    simpl. rewrite <- !app_assoc. apply He.
Qed.

Lemma arguments_plain_head es i rest : 
  is_attr_load (opname i) = false -> plain_head (concat (map compile es) ++ i :: rest).
Proof.
  intros Hi. destruct es as [|e es]; [exact Hi|].
  simpl. rewrite <- app_assoc. apply compile_plain_head.
Qed.

(** The look-ahead folds the attribute loads which follow into the
    function and removes them from the stream. *)
Lemma fold_attributes_chain attrs : forall fuel f0 f pre i rest conds stack,
  (length attrs < fuel)%nat ->
  getattr_chain rt f0 attrs = Ok f ->
  plain_head rest ->
  fold_attributes rt fuel f0
    (Machine (pre ++ i :: map (fun a => Instruction "LOAD_ATTR" (VStr a)) attrs ++ rest)
       conds stack (Z.of_nat (length pre)))
    = Some (Ok f, Machine (pre ++ i :: rest) conds stack (Z.of_nat (length pre))).
Proof.
  induction attrs as [|a attrs IH]; intros fuel f0 f pre i rest conds stack Hfuel Hchain Hrest;
    (destruct fuel as [|fuel]; [simpl in Hfuel; lia|]).
  - injection Hchain as <-. simpl.
    unfold bind, get_idx, get_instructions, instructions_get. cbn [instructions idx].
    destruct rest as [|x rest].
    + assert ((Z.of_nat (length pre) + 1 <? Z.of_nat (length (pre ++ [i]))) = false) as ->;
        [|done].
      apply Z.ltb_ge. rewrite length_app. simpl. lia.
    + assert ((Z.of_nat (length pre) + 1 <? Z.of_nat (length (pre ++ i :: x :: rest))) = true)
        as ->.
      { apply Z.ltb_lt. rewrite length_app. simpl. lia. }
      replace (Z.of_nat (length pre) + 1) with (Z.of_nat (length (pre ++ [i])))
        by (rewrite length_app; simpl; lia).
      change (pre ++ i :: x :: rest) with (pre ++ [i] ++ x :: rest).
      rewrite app_assoc. cbn [instructions]. rewrite list_getitem_middle.
      simpl in Hrest. by rewrite Hrest.
  - simpl in Hchain. destruct (rt_getattr rt f0 (VStr a)) as [f1|e] eqn:Hattr; [|done].
    cbn [fold_attributes map app].
    unfold bind at 1 2, get_idx, get_instructions. cbn [instructions idx].
    assert ((Z.of_nat (length pre) + 1 <?
             Z.of_nat (length (pre ++ i :: Instruction "LOAD_ATTR" (VStr a) ::
                         map (fun a => Instruction "LOAD_ATTR" (VStr a)) attrs ++ rest))) = true)
      as ->.
    { apply Z.ltb_lt. rewrite length_app. simpl. lia. }
    unfold bind at 1, instructions_get. cbn [instructions idx].
    replace (Z.of_nat (length pre) + 1) with (Z.of_nat (length (pre ++ [i])))
      by (rewrite length_app; simpl; lia).
    change (pre ++ i :: ?x :: ?r) with (pre ++ [i] ++ x :: r).
    rewrite app_assoc, list_getitem_middle.
    cbn [opname argval is_attr_load String.eqb Ascii.eqb Bool.eqb orb].
    unfold bind at 1, lift. rewrite Hattr.
    unfold bind at 1, instructions_pop. cbn [instructions conditions args idx].
    rewrite list_pop_at_middle. rewrite <- app_assoc.
    replace (Z.of_nat (length (pre ++ [i]))) with (Z.of_nat (length pre) + 1)
      by (rewrite length_app; simpl; lia).
    apply IH; [simpl in Hfuel; lia | done | done].
Qed.

Lemma step_load_global name :
  step (Instruction "LOAD_GLOBAL" name) =
    (let! i := get_idx in
     let! current := instructions_get i in
     let! function := lift (resolve rt closure (argval current)) in
     let! function' := look_ahead rt function in
     args_append function' >> ret Next).
Proof. reflexivity. Qed.

Lemma pass_load_global pre name attrs rest conds stack f0 f :
  resolve rt closure (VStr name) = Ok f0 ->
  getattr_chain rt f0 attrs = Ok f ->
  plain_head rest ->
  pass (at_position pre
          (Instruction "LOAD_GLOBAL" (VStr name) ::
           map (fun a => Instruction "LOAD_ATTR" (VStr a)) attrs ++ rest) conds stack)
    = Some (Ok None,
            at_position (pre ++ [Instruction "LOAD_GLOBAL" (VStr name)]) rest conds
              (stack ++ [f])).
Proof.
  intros Hres Hchain Hrest.
  rewrite (pass_current rt closure _ _ (current_at_position _ _ _ _ _)).
  rewrite step_load_global. unfold at_position at 1.
  unfold bind at 1 2 3, get_idx, instructions_get. cbn [instructions idx].
  rewrite list_getitem_middle. cbn [argval].
  unfold bind at 1, lift. rewrite Hres.
  unfold bind at 1, look_ahead. unfold bind at 1, get_instructions. cbn [instructions].
  rewrite (fold_attributes_chain attrs _ f0 f) by (rewrite ?length_app; simpl; rewrite ?length_app, ?length_map; lia || done).
  unfold bind, args_append, ret, idx_add. simpl.
  by rewrite at_position_next.
Qed.

Lemma step_call_function n :
  step (Instruction "CALL_FUNCTION" n) =
    (let! n_args := lift (py_range n) in
     let! fn_args := gather n_args [] in
     let! names := lift (py_reversed rt (VList [])) in
     let! (fn_args', kwargs) := lift (bind_keywords rt names fn_args []) in
     let! function := args_pop in
     excise_previous >>
     let! bound_args := lift (rt_signature_bind rt function fn_args' kwargs) in
     args_append (VBoundFn function (VBoundArguments bound_args)) >> ret Next).
Proof. reflexivity. Qed.

Lemma pass_call_function pre fi ins rest conds stack f vs bound :
  length ins = length vs ->
  rt_signature_bind rt f vs [] = Ok bound ->
  pass (at_position ((pre ++ [fi]) ++ ins)
          (Instruction "CALL_FUNCTION" (VInt (Z.of_nat (length vs))) :: rest) conds
          ((stack ++ [f]) ++ vs))
    = Some (Ok None,
            at_position (pre ++ [Instruction "CALL_FUNCTION" (VInt (Z.of_nat (length vs)))])
              rest conds (stack ++ [VBoundFn f (VBoundArguments bound)])).
Proof.
  intros Hlen Hbind.
  rewrite (pass_current rt closure _ _ (current_at_position _ _ _ _ _)).
  rewrite step_call_function.
  unfold bind at 1 2 3, lift at 1, py_range. rewrite Nat2Z.id.
  rewrite (gather_at vs ins) by done. rewrite app_nil_r.
  unfold bind at 1, lift at 1. cbn [py_reversed rev].
  unfold bind at 1, lift at 1. cbn [bind_keywords].
  unfold bind at 1. unfold at_position at 1. rewrite args_pop_snoc.
  unfold bind at 1.
  change (Machine ((pre ++ [fi]) ++ ?r) ?c ?s (Z.of_nat (length (pre ++ [fi]))))
    with (at_position (pre ++ [fi]) r c s).
  rewrite excise_previous_at.
  unfold bind at 1, lift at 1. rewrite Hbind.
  unfold bind, args_append, ret, idx_add, at_position. simpl.
  by rewrite at_position_next.
Qed.

Lemma walk_expressions es : forall pre rest conds stack,
  reaches (at_position pre (concat (map compile es) ++ rest) conds stack)
          (at_position (pre ++ map root es) rest conds (stack ++ map denote es)).
Proof.
  induction es as [|e es IH]; intros pre rest conds stack.
  - simpl. rewrite !app_nil_r. apply reaches_here.
  - simpl. rewrite <- app_assoc.
    eapply reaches_trans; [apply walk_expression|].
    eapply reaches_trans; [apply IH|].
    rewrite <- !app_assoc. apply reaches_here.
Qed.

(** X12.  The stream of a call [name.a1. ... .an(e1, ..., ek)] of a global
    (or nonlocal, or builtin) name with positional arguments over such
    expressions is reconstructed as the function found by resolving the
    name in the scope and following the attributes, bound to the models of
    the arguments: the attribute loads are folded into the function by the
    look-ahead, and the signature is bound without keywords. *)
Theorem call_round_trip name attrs es a tail f0 f bound :
  resolve rt closure (VStr name) = Ok f0 ->
  getattr_chain rt f0 attrs = Ok f ->
  rt_signature_bind rt f (map denote es) [] = Ok bound ->
  _parse_instructions rt closure
    (compile_call name attrs es ++ Instruction "RETURN_VALUE" a :: tail)
    = Some (Ok (VBoundFn f (VBoundArguments bound))).
Proof.
  intros Hres Hchain Hbind.
  assert (Hwalk : reaches
            (Machine (compile_call name attrs es ++ Instruction "RETURN_VALUE" a :: tail) [] [] 0)
            (at_position
               ([] ++ [Instruction "CALL_FUNCTION" (VInt (Z.of_nat (length (map denote es))))])
               (Instruction "RETURN_VALUE" a :: tail) []
               ([] ++ [VBoundFn f (VBoundArguments bound)]))).
  { unfold compile_call. rewrite <- (length_map denote es).
    eapply reaches_trans.
    { apply reaches_one.
      change (Machine ?l [] [] 0) with (at_position [] l [] []).
      cbn [app]. rewrite <- !app_assoc.
      apply (pass_load_global [] name attrs _ [] [] f0 f Hres Hchain).
      apply arguments_plain_head. reflexivity. }
    eapply reaches_trans; [apply walk_expressions|].
    apply reaches_one.
    apply (pass_call_function [] _ (map root es) _ [] [] f (map denote es) bound);
      [by rewrite !length_map | done]. }
  assert (Hterm : terminal
            (at_position
               ([] ++ [Instruction "CALL_FUNCTION" (VInt (Z.of_nat (length (map denote es))))])
               (Instruction "RETURN_VALUE" a :: tail) []
               ([] ++ [VBoundFn f (VBoundArguments bound)]))).
  { right. split; [done|]. eexists. split; [apply current_at_position | done]. }
  unfold _parse_instructions.
  rewrite (run_parse_leaves rt closure _ _ _ _ Hwalk (pass_terminal rt closure _ Hterm)).
  reflexivity.
Qed.

(** ** A method call on a parameter *)

Lemma run_parse_raises instrs m e m' :
  reaches (Machine instrs [] [] 0) m ->
  pass m = Some (Raise e, m') ->
  run_parse rt closure instrs = Some (Raise e, m').
Proof.
  intros Hreach Hpass.
  destruct (while_loop_reaches rt closure _ _ Hreach (2 * length instrs + 1))
    as (fuel & _ & Hfuel & Heq); [unfold walk_measure; simpl; lia | lia |].
  unfold run_parse, bind at 1. rewrite Heq.
  destruct fuel as [|fuel]; [lia|].
  simpl. unfold bind at 1. by rewrite Hpass.
Qed.

Lemma step_load_method name :
  step (Instruction "LOAD_METHOD" name) =
    (let! i := get_idx in
     let! current := instructions_get i in
     let! function := lift (resolve rt closure (argval current)) in
     let! function' := look_ahead rt function in
     args_append function' >> ret Next).
Proof. reflexivity. Qed.

Lemma pass_load_method pre name rest conds stack f0 :
  resolve rt closure (VStr name) = Ok f0 ->
  plain_head rest ->
  pass (at_position pre (Instruction "LOAD_METHOD" (VStr name) :: rest) conds stack)
    = Some (Ok None,
            at_position (pre ++ [Instruction "LOAD_METHOD" (VStr name)]) rest conds
              (stack ++ [f0])).
Proof.
  intros Hres Hrest.
  rewrite (pass_current rt closure _ _ (current_at_position _ _ _ _ _)).
  rewrite step_load_method. unfold at_position at 1.
  unfold bind at 1 2 3, get_idx, instructions_get. cbn [instructions idx].
  rewrite list_getitem_middle. cbn [argval].
  unfold bind at 1, lift. rewrite Hres.
  unfold bind at 1, look_ahead. unfold bind at 1, get_instructions. cbn [instructions].
  rewrite (fold_attributes_chain [] _ f0 f0 pre _ rest) by (simpl; lia || done).
  unfold bind, args_append, ret, idx_add. simpl.
  by rewrite at_position_next.
Qed.

Lemma step_call_method n :
  step (Instruction "CALL_METHOD" n) =
    (let! n_args := lift (py_range n) in
     let! fn_args := gather n_args [] in
     let! names := lift (py_reversed rt (VList [])) in
     let! (fn_args', kwargs) := lift (bind_keywords rt names fn_args []) in
     let! function := args_pop in
     excise_previous >>
     let! bound_args := lift (rt_signature_bind rt function fn_args' kwargs) in
     args_append (VBoundFn function (VBoundArguments bound_args)) >> ret Next).
Proof. reflexivity. Qed.

(** The binding of the signature is not guarded: what it raises leaves the
    pass. *)
Lemma pass_call_method_raises pre fi ins rest conds stack f vs e :
  length ins = length vs ->
  rt_signature_bind rt f vs [] = Raise e ->
  exists m',
    pass (at_position ((pre ++ [fi]) ++ ins)
            (Instruction "CALL_METHOD" (VInt (Z.of_nat (length vs))) :: rest) conds
            ((stack ++ [f]) ++ vs))
      = Some (Raise e, m').
Proof.
  intros Hlen Hbind.
  rewrite (pass_current rt closure _ _ (current_at_position _ _ _ _ _)).
  rewrite step_call_method.
  unfold bind at 1 2 3, lift at 1, py_range. rewrite Nat2Z.id.
  rewrite (gather_at vs ins) by done. rewrite app_nil_r.
  unfold bind at 1, lift at 1. cbn [py_reversed rev].
  unfold bind at 1, lift at 1. cbn [bind_keywords].
  unfold bind at 1. unfold at_position at 1. rewrite args_pop_snoc.
  unfold bind at 1.
  change (Machine ((pre ++ [fi]) ++ ?r) ?c ?s (Z.of_nat (length (pre ++ [fi]))))
    with (at_position (pre ++ [fi]) r c s).
  rewrite excise_previous_at.
  unfold bind at 1, lift at 1. rewrite Hbind. by eexists.
Qed.

(** C1.  The function does not keep to "None if parsing fails": the stream
    of [lambda x: x.foo(1)] is walked without a failure being noticed, the
    method name [foo] is looked up in the scope as if it were a variable
    and found to be [None] there, and the signature of [None] is asked for.
    What [inspect.signature] raises then leaves [_parse_instructions], and
    [_trace_value] of the lambda with it, after the one call of the
    reconstructor. *)
Theorem method_call_on_parameter_raises e var_names depth wrap_str include_id :
  resolve rt closure (VStr "foo") = Ok VNone ->
  rt_signature_bind rt VNone [VInt 1] [] = Raise e ->
  _parse_instructions rt closure method_call_stream = Some (Raise e) /\
  _trace_value rt (S depth) (VLambda var_names method_call_stream closure) wrap_str include_id
    = Some (Raise e, 1%nat).
Proof.
  intros Hfoo Hbind.
  assert (Hparse : _parse_instructions rt closure method_call_stream = Some (Raise e)).
  { assert (Hwalk : reaches (Machine method_call_stream [] [] 0)
              (at_position
                 (([Instruction "LOAD_FAST" (VStr "x")] ++
                   [Instruction "LOAD_METHOD" (VStr "foo")]) ++
                  [Instruction "LOAD_CONST" (VInt 1)])
                 [Instruction "CALL_METHOD" (VInt 1); Instruction "RETURN_VALUE" VNone] []
                 (([VVarWrap (VStr "x")] ++ [VNone]) ++ [VInt 1]))).
    { eapply reaches_trans; [apply reaches_one, (pass_load_fast [] (VStr "x") _ [] [])|].
      eapply reaches_trans;
        [apply reaches_one, (pass_load_method _ "foo" _ [] _ VNone Hfoo); reflexivity|].
      apply reaches_one, pass_load_const. }
    destruct (pass_call_method_raises [Instruction "LOAD_FAST" (VStr "x")]
                (Instruction "LOAD_METHOD" (VStr "foo")) [Instruction "LOAD_CONST" (VInt 1)]
                [Instruction "RETURN_VALUE" VNone] [] [VVarWrap (VStr "x")] VNone [VInt 1] e
                eq_refl Hbind) as (m' & Hpass).
    unfold _parse_instructions.
    by rewrite (run_parse_raises _ _ _ _ Hwalk Hpass). }
  split; [exact Hparse|].
  cbn [_trace_value]. by rewrite Hparse.
Qed.

End ExpressionFacts.

(** * The stack never outgrows the walk *)

Section WalkFacts.
Context (rt : Runtime) (closure : closure_vars) (n : nat).

Lemma walk_error_pop : walk_error rt (IndexError "pop from empty list").
Proof. by left. Qed.
Lemma walk_error_deque : walk_error rt (IndexError "pop from an empty deque").
Proof. right. by left. Qed.
Lemma walk_error_index : walk_error rt (IndexError "list index out of range").
Proof. right. right. by left. Qed.
Lemma walk_error_type msg : walk_error rt (TypeError msg).
Proof. right. right. right. left. by eexists. Qed.
Lemma walk_error_getattr obj name e : rt_getattr rt obj name = Raise e -> walk_error rt e.
Proof. intros H. do 4 right. left. eauto. Qed.
Lemma walk_error_bind f a k e : rt_signature_bind rt f a k = Raise e -> walk_error rt e.
Proof. intros H. do 5 right. eauto. Qed.

Create HintDb walk.

Local Hint Resolve walk_error_pop walk_error_deque walk_error_index walk_error_type
  walk_error_getattr walk_error_bind : walk.

Ltac walk_raises :=
  intros; repeat (case_match; simplify_eq); simplify_eq; eauto with walk.

Lemma list_getitem_error {A} (l : list A) i e : list_getitem l i = Raise e -> walk_error rt e.
Proof. unfold list_getitem. walk_raises. Qed.
Lemma py_range_error v e : py_range v = Raise e -> walk_error rt e.
Proof. unfold py_range. walk_raises. Qed.
Lemma py_iter_error v e : py_iter rt v = Raise e -> walk_error rt e.
Proof. unfold py_iter. walk_raises. Qed.
Lemma py_reversed_error v e : py_reversed rt v = Raise e -> walk_error rt e.
Proof. unfold py_reversed. walk_raises. Qed.
Lemma py_set_error xs e : py_set rt xs = Raise e -> walk_error rt e.
Proof. unfold py_set. walk_raises. Qed.
Lemma dict_get_error d k v e : dict_get rt d k v = Raise e -> walk_error rt e.
Proof. unfold dict_get. walk_raises. Qed.
Lemma dict_setitem_error d k v e : dict_setitem rt d k v = Raise e -> walk_error rt e.
Proof. unfold dict_setitem. walk_raises. Qed.
Lemma dict_of_pairs_error pairs acc e : dict_of_pairs rt acc pairs = Raise e -> walk_error rt e.
Proof.
  revert acc. induction pairs as [|[k v] pairs IH]; intros acc; simpl; [done|].
  destruct (dict_setitem rt acc k v) eqn:E; [apply IH|].
  intros [= <-]. eapply dict_setitem_error, E.
Qed.
Lemma table_lookup_error v e : table_lookup rt v = Raise e -> walk_error rt e.
Proof. unfold table_lookup. walk_raises. Qed.
Lemma resolve_error name e : resolve rt closure name = Raise e -> walk_error rt e.
Proof.
  unfold resolve. intros H.
  repeat (case_match; simplify_eq); eauto using dict_get_error.
Qed.
Lemma deref_is_callable_error i e : _deref_is_callable rt closure i = Raise e -> walk_error rt e.
Proof.
  unfold _deref_is_callable. intros H.
  case_match; simplify_eq. eauto using resolve_error.
Qed.
Lemma bind_keywords_error names fn_args kwargs e :
  bind_keywords rt names fn_args kwargs = Raise e -> walk_error rt e.
Proof.
  revert fn_args kwargs. induction names as [|name names IH]; intros fn_args kwargs; simpl; [done|].
  destruct (list_pop fn_args) as [[fn_args' v]|]; [|intros [= <-]; eauto with walk].
  destruct (dict_setitem rt kwargs name v) eqn:E; [apply IH|].
  intros [= <-]. eapply dict_setitem_error, E.
Qed.

Local Hint Resolve list_getitem_error py_range_error py_iter_error py_reversed_error
  py_set_error dict_setitem_error dict_of_pairs_error table_lookup_error resolve_error
  deref_is_callable_error bind_keywords_error : walk.

Lemma tidy_weaken s s' m : s' <= s -> tidy s n m -> tidy s' n m.
Proof. unfold tidy. intros ? (? & ? & ?). split_and!; [lia | done | done]. Qed.

(** *** Rules *)

Lemma keeps_ret {A} (a : A) (P : machine -> Prop) Q :
  (forall m, P m -> Q a m) -> keeps rt P (ret a) Q.
Proof. intros H m Hm. by apply H. Qed.

Lemma keeps_bind {A B} P (c : M A) R (k : A -> M B) Q :
  keeps rt P c R -> (forall a, keeps rt (R a) (k a) Q) -> keeps rt P (bind c k) Q.
Proof.
  intros Hc Hk m Hm. unfold bind. specialize (Hc m Hm).
  destruct (c m) as [[[a|e] m']|]; [|done..]. by apply Hk.
Qed.

Lemma keeps_lift {A B} P (r : result A) (k : A -> M B) Q :
  (forall e, r = Raise e -> walk_error rt e) ->
  (forall a, r = Ok a -> keeps rt P (k a) Q) ->
  keeps rt P (bind (lift r) k) Q.
Proof.
  intros He Hk m Hm. unfold bind, lift.
  destruct r as [a|e]; [by apply Hk | by apply He].
Qed.

Lemma keeps_read {A B} P (get : machine -> A) (k : A -> M B) Q :
  (forall a, keeps rt P (k a) Q) -> keeps rt P (bind (fun m => Some (Ok (get m), m)) k) Q.
Proof. intros Hk m Hm. unfold bind. by apply Hk. Qed.

Lemma keeps_instructions_get {B} P i (k : instruction -> M B) Q :
  (forall x, keeps rt P (k x) Q) -> keeps rt P (bind (instructions_get i) k) Q.
Proof.
  intros Hk m Hm. unfold bind, instructions_get.
  destruct (list_getitem (instructions m) i) eqn:E; [by apply Hk | eauto with walk].
Qed.

Lemma keeps_args_pop s : keeps rt (tidy s n) args_pop (fun _ => tidy (s + 1) n).
Proof.
  intros m (Hs & Hi & Hn). unfold args_pop.
  destruct (list_pop (args m)) as [[l v]|] eqn:E; [|eauto with walk].
  unfold list_pop in E. destruct (reverse (args m)) as [|x r] eqn:Er; [done|].
  injection E as <- <-.
  assert (length (args m) = S (length (reverse r))) as Hlen.
  { rewrite <- (reverse_involutive (args m)), Er, reverse_cons, length_app. simpl. lia. }
  unfold tidy. simpl. split_and!; [lia | done | done].
Qed.

Lemma keeps_args_append s v : keeps rt (tidy s n) (args_append v) (fun _ => tidy (s - 1) n).
Proof.
  intros m (Hs & Hi & Hn). unfold args_append, tidy. simpl.
  rewrite length_app. simpl. split_and!; [lia | done | done].
Qed.

Lemma keeps_idx_add s k :
  k <= 0 -> keeps rt (tidy s n) (idx_add k) (fun _ => tidy (s + k) n).
Proof.
  intros Hk m (Hs & Hi & Hn). unfold idx_add, tidy. simpl. split_and!; [lia | lia | done].
Qed.

Lemma list_pop_at_in_range {A} (l : list A) i :
  0 <= i < Z.of_nat (length l) ->
  exists l', list_pop_at l i = Ok l' /\ length l = S (length l').
Proof.
  intros Hi. unfold list_pop_at, py_index.
  destruct l as [|x l]; [simpl in Hi; lia|].
  assert ((i <? 0) = false) as -> by (apply Z.ltb_ge; lia).
  assert ((0 <=? i) && (i <? Z.of_nat (length (x :: l))) = true) as ->.
  { apply andb_true_intro. split; [apply Z.leb_le | apply Z.ltb_lt]; lia. }
  eexists. split; [reflexivity|].
  rewrite length_delete; [simpl in *; lia|].
  apply lookup_lt_is_Some. lia.
Qed.

(** The instruction before [idx] leaves the stream: with [idx >= 1] the
    index [idx - 1] is a position of the list, never one counted from its
    end. *)
Lemma keeps_excise_at m :
  1 <= idx m < Z.of_nat (length (instructions m)) ->
  exists l', excise_previous m = Some (Ok tt, Machine l' (conditions m) (args m) (idx m - 1)) /\
             length (instructions m) = S (length l').
Proof.
  intros Hi. unfold excise_previous, bind, get_idx, instructions_pop, idx_add.
  destruct (list_pop_at_in_range (instructions m) (idx m - 1)) as (l' & -> & Hlen); [lia|].
  exists l'. split; [reflexivity | done].
Qed.

Lemma keeps_excise s : 1 <= s -> keeps rt (tidy s n) excise_previous (fun _ => tidy (s - 1) n).
Proof.
  intros Hs m (Hm & Hi & Hn).
  destruct (keeps_excise_at m) as (l' & -> & Hlen); [lia|].
  unfold tidy. simpl. split_and!; lia.
Qed.

(** A condition is appended and an instruction leaves: the pending
    condition itself accounts for an instruction before [idx]. *)
Lemma keeps_conditions_append_excise {B} s p (k : unit -> M B) Q :
  1 <= s ->
  (forall u, keeps rt (tidy (s - 2) n) (k u) Q) ->
  keeps rt (tidy s n) (conditions_append p >> bind excise_previous k) Q.
Proof.
  intros Hs Hk m (Hm & Hi & Hn). unfold bind at 1, conditions_append.
  set (m1 := Machine _ _ _ _).
  destruct (keeps_excise_at m1) as (l' & He & Hlen); [simpl; lia|].
  unfold bind. rewrite He. apply Hk.
  unfold tidy. simpl in *. rewrite length_app. simpl. split_and!; lia.
Qed.

Ltac keeps_step :=
  cbv beta;
  lazymatch goal with
  | |- keeps _ _ (ret _) _ => apply keeps_ret; intros ? ?
  | |- keeps _ _ (bind get_idx _) _ => apply (keeps_read _ idx); intros ?
  | |- keeps _ _ (bind get_instructions _) _ => apply (keeps_read _ instructions); intros ?
  | |- keeps _ _ (bind get_conditions _) _ => apply (keeps_read _ conditions); intros ?
  | |- keeps _ _ (bind get_args _) _ => apply (keeps_read _ args); intros ?
  | |- keeps _ _ (bind (instructions_get _) _) _ => apply keeps_instructions_get; intros ?
  | |- keeps _ _ (bind (lift _) _) _ =>
      apply keeps_lift; [solve [eauto with walk] | intros ? ?]
  | |- keeps _ _ (bind args_pop _) _ =>
      eapply keeps_bind; [apply keeps_args_pop | intros ?]
  | |- keeps _ _ (bind (args_append _) _) _ =>
      eapply keeps_bind; [apply keeps_args_append | intros ?]
  | |- keeps _ _ (bind (conditions_append _) (fun _ => bind excise_previous _)) _ =>
      apply keeps_conditions_append_excise; [lia | intros ?]
  | |- keeps _ _ (bind (idx_add _) _) _ =>
      eapply keeps_bind; [apply keeps_idx_add; lia | intros ?]
  | |- keeps _ _ (bind excise_previous _) _ =>
      eapply keeps_bind; [apply keeps_excise; lia | intros ?]
  | |- keeps _ _ (if ?b then _ else _) _ => destruct b eqn:?
  | |- keeps _ _ (match ?x with _ => _ end) _ => destruct x eqn:?
  | |- keeps _ _ (let (_, _) := ?x in _) _ => destruct x eqn:?
  end.

Lemma gather_keeps k : forall acc s,
  0 <= s -> keeps rt (tidy s n) (gather k acc) (fun _ => tidy s n).
Proof.
  induction k as [|k IH]; intros acc s Hs; simpl.
  - keeps_step. done.
  - do 2 keeps_step. cbv beta.
    replace (s + 1 - 1) with s by lia. by apply IH.
Qed.

Lemma gather_map_keeps k : forall arg s,
  0 <= s -> keeps rt (tidy s n) (gather_map rt k arg) (fun _ => tidy s n).
Proof.
  induction k as [|k IH]; intros arg s Hs; simpl.
  - keeps_step. done.
  - do 5 keeps_step. cbv beta.
    replace (s + 1 + 1 - 1 - 1) with s by lia. by apply IH.
Qed.

(** The look-ahead removes instructions after [idx] only, and only such as
    it has just read. *)
Lemma fold_attributes_keeps fuel : forall function s m,
  0 <= s -> (length (instructions m) < fuel)%nat -> tidy s n m ->
  match fold_attributes rt fuel function m with
  | Some (Ok _, m') => tidy s n m'
  | Some (Raise e, _) => walk_error rt e
  | None => False
  end.
Proof.
  induction fuel as [|fuel IH]; intros function s m Hs Hfuel Hm; [lia|].
  simpl. unfold bind at 1 2, get_idx, get_instructions.
  destruct (idx m + 1 <? Z.of_nat (length (instructions m))) eqn:Hlt; [|done].
  apply Z.ltb_lt in Hlt.
  unfold bind at 1, instructions_get.
  destruct (list_getitem (instructions m) (idx m + 1)) as [next|e] eqn:Hnext;
    [|eauto with walk].
  destruct (is_attr_load (opname next)); [|done].
  unfold bind at 1, lift.
  destruct (rt_getattr rt function (argval next)) as [function'|e] eqn:Hattr;
    [|eauto with walk].
  destruct Hm as (Hm & Hi & Hn).
  destruct (list_pop_at_in_range (instructions m) (idx m + 1)) as (l' & Hpop & Hlen); [lia|].
  unfold bind at 1, instructions_pop. rewrite Hpop.
  apply IH; [done | simpl; lia |].
  unfold tidy. simpl. split_and!; lia.
Qed.

Lemma look_ahead_keeps function s :
  0 <= s -> keeps rt (tidy s n) (look_ahead rt function) (fun _ => tidy s n).
Proof.
  intros Hs m Hm. unfold look_ahead, bind, get_instructions.
  apply fold_attributes_keeps; [done | lia | done].
Qed.

Lemma deref_is_data_keeps i s :
  keeps rt (tidy s n) (deref_is_data rt closure i) (fun _ => tidy s n).
Proof. unfold deref_is_data. repeat keeps_step; done. Qed.

(** The conditions lose their last element. *)
Lemma keeps_pop_condition {B} s (k : pending -> M B) (k0 : M B) Q :
  (forall current_condition, keeps rt (tidy (s + 1) n) (k current_condition) Q) ->
  keeps rt (tidy s n) k0 Q ->
  keeps rt (tidy s n)
    (let! cs := get_conditions in
     match list_pop cs with
     | Some (cs', current_condition) => set_conditions cs' >> k current_condition
     | None => k0
     end) Q.
Proof.
  intros Hk Hk0 m Hm. unfold bind at 1, get_conditions.
  destruct (list_pop (conditions m)) as [[cs' cur]|] eqn:E; [|by apply Hk0].
  unfold list_pop in E. destruct (reverse (conditions m)) as [|x r] eqn:Er; [done|].
  injection E as <- <-.
  assert (length (conditions m) = S (length (reverse r))) as Hlen.
  { rewrite <- (reverse_involutive (conditions m)), Er, reverse_cons, length_app. simpl. lia. }
  unfold bind, set_conditions. apply Hk.
  destruct Hm as (Hm & Hi & Hn). unfold tidy. simpl. split_and!; [lia | done | done].
Qed.

Lemma keeps_lift_last {A} P (r : result A) (Q : A -> machine -> Prop) :
  (forall e, r = Raise e -> walk_error rt e) ->
  (forall a m, P m -> Q a m) ->
  keeps rt P (lift r) Q.
Proof.
  intros He HQ m Hm. unfold lift. destruct r as [a|e]; [by apply HQ | by apply He].
Qed.

Ltac keeps_done :=
  lazymatch goal with
  | H : tidy ?s _ ?m |- goes_on _ Next ?m => apply (tidy_weaken s); [lia | exact H]
  | H : tidy ?s _ ?m |- tidy _ _ ?m => apply (tidy_weaken s); [lia | exact H]
  | |- goes_on _ _ _ => exact I
  end.

Ltac keeps_walk :=
  repeat first
    [ apply keeps_pop_condition; [intros ? | ]
    | lazymatch goal with
      | |- keeps _ (tidy ?s _) (bind (gather _ _) _) _ =>
          apply (keeps_bind _ _ (fun _ => tidy s n));
          [apply gather_keeps; lia | intros ?]
      | |- keeps _ (tidy ?s _) (bind (gather_map _ _ _) _) _ =>
          apply (keeps_bind _ _ (fun _ => tidy s n));
          [apply gather_map_keeps; lia | intros ?]
      | |- keeps _ (tidy ?s _) (bind (look_ahead _ _) _) _ =>
          apply (keeps_bind _ _ (fun _ => tidy s n));
          [apply look_ahead_keeps; lia | intros ?]
      | |- keeps _ (tidy ?s _) (bind (deref_is_data _ _ _) _) _ =>
          apply (keeps_bind _ _ (fun _ => tidy s n));
          [apply deref_is_data_keeps | intros ?]
      | |- keeps _ (tidy ?s _) (bind (if _ then _ else _) _) _ =>
          apply (keeps_bind _ _ (fun _ => tidy s n)); [| intros ?]
      | |- keeps _ _ (lift _) _ =>
          apply keeps_lift_last; [solve [eauto with walk] | intros ? ? ?]
      end
    | keeps_step ];
  try keeps_done.

Lemma step_keeps i : keeps rt (tidy 0 n) (step rt closure i) (goes_on n).
Proof. unfold step. keeps_walk. Qed.

Lemma pass_keeps m :
  orderly n m ->
  match pass rt closure m with
  | Some (Ok None, m') => orderly n m'
  | Some (Ok (Some _), _) => True
  | Some (Raise e, _) => walk_error rt e
  | None => False
  end.
Proof.
  intros (Hm & Hi & Hn).
  unfold pass, bind at 1 2, get_idx, get_instructions.
  destruct (idx m <? Z.of_nat (length (instructions m))) eqn:Hlt; [|done].
  apply Z.ltb_lt in Hlt.
  unfold bind at 1, instructions_get.
  destruct (list_getitem (instructions m) (idx m)) as [i|e] eqn:Hget; [|eauto with walk].
  assert (Htidy : tidy 0 n m) by (unfold tidy; split_and!; [lia | done | done]).
  generalize (step_keeps i m Htidy). unfold bind.
  destruct (step rt closure i m) as [[[f|e] m']|]; try done.
  destruct f; try done.
  intros (Hm' & Hi' & Hn'). unfold orderly. simpl. split_and!; [lia | lia | done].
Qed.

Lemma reaches_orderly m m' : reaches rt closure m m' -> orderly n m -> orderly n m'.
Proof.
  induction 1 as [m|m m' m'' Hpass _ IH]; [done|].
  intros Hm. apply IH. generalize (pass_keeps m Hm). by rewrite Hpass.
Qed.

Lemma while_loop_error fuel : forall m e m',
  orderly n m -> while_loop rt closure fuel m = Some (Raise e, m') -> walk_error rt e.
Proof.
  induction fuel as [|fuel IH]; intros m e m' Hm; [done|].
  simpl. unfold bind. generalize (pass_keeps m Hm).
  destruct (pass rt closure m) as [[[[f|]|e0] m0]|]; try done.
  - intros Hm0. by apply IH.
  - by intros He [= <- _].
Qed.

End WalkFacts.

Section WalkInvariant.
Context (rt : Runtime) (closure : closure_vars).

Lemma start_orderly instrs : orderly (length instrs) (Machine instrs [] [] 0).
Proof. unfold orderly. simpl. split_and!; lia. Qed.

(** X13.  At the top of every pass of the loop of [_parse_instructions]
    the values on the stack and the pending conditions together are at most
    as many as the instructions before [idx], [idx] is at most the length
    of the working copy, and the working copy is not longer than the list
    given. *)
Theorem walk_invariant instrs m :
  reaches rt closure (Machine instrs [] [] 0) m ->
  Z.of_nat (length (args m) + length (conditions m)) <= idx m /\
  idx m <= Z.of_nat (length (instructions m)) /\
  (length (instructions m) <= length instrs)%nat.
Proof. intros Hreach. exact (reaches_orderly rt closure _ _ _ Hreach (start_orderly instrs)). Qed.

(** X14.  What [_parse_instructions] raises by itself is: [IndexError] for
    a pop from the empty stack, for a pop from the empty deque of
    arguments, or for the look past the last instruction; or a
    [TypeError].  Everything else it raises was raised by an attribute
    access or by the binding of a signature.  In particular the
    [IndexError] of a pop at a position outside the list, which only the
    removal of an instruction from the working copy could raise, never
    occurs. *)
Theorem parse_errors_by_origin instrs e :
  _parse_instructions rt closure instrs = Some (Raise e) -> walk_error rt e.
Proof.
  unfold _parse_instructions, run_parse, bind.
  destruct (while_loop rt closure (2 * length instrs + 1) (Machine instrs [] [] 0))
    as [[[f|e0] m]|] eqn:Hloop; [| |done].
  - destruct f; try done;
      destruct (conclude_spec m) as (v & -> & _); done.
  - simpl. intros [= <-].
    eapply while_loop_error; [apply start_orderly | exact Hloop].
Qed.

End WalkInvariant.

(** * The bound of the model of [_trace_value] *)

Section DepthFacts.
Context (rt : Runtime).

Lemma settles_refl {A} (c : T A) : settles c c.
Proof. by intros r. Qed.

Lemma settles_tbind {A B} (c c' : T A) (k k' : A -> T B) :
  settles c c' -> (forall a, settles (k a) (k' a)) -> settles (tbind c k) (tbind c' k').
Proof.
  intros Hc Hk r. unfold tbind.
  destruct c as [[[a|e] n1]|]; [| |done].
  - rewrite (Hc _ eq_refl). specialize (Hk a).
    destruct (k a) as [[r2 n2]|]; [|done]. by rewrite (Hk _ eq_refl).
  - by rewrite (Hc _ eq_refl).
Qed.

Lemma settles_tmap {A B} (f f' : A -> T B) l :
  (forall x, x ∈ l -> settles (f x) (f' x)) -> settles (tmap f l) (tmap f' l).
Proof.
  induction l as [|x l IH]; intros Hf; simpl; [apply settles_refl|].
  apply settles_tbind; [apply Hf, list_elem_of_here|]. intros y.
  apply settles_tbind; [|intros; apply settles_refl].
  apply IH. intros z Hz. by apply Hf, list_elem_of_further.
Qed.

(** The bound only cuts the recursion: a result found within a bound is
    found within every larger one. *)
Lemma trace_value_settles depth : forall v wrap_str include_id,
  settles (_trace_value rt depth v wrap_str include_id)
          (_trace_value rt (S depth) v wrap_str include_id).
Proof.
  induction depth as [|depth IH]; intros v wrap_str include_id; [done|].
  pose (d1 := S depth).
  change (settles (_trace_value rt (S depth) v wrap_str include_id)
                  (_trace_value rt (S d1) v wrap_str include_id)).
  assert (IH' : forall v w i, settles (_trace_value rt depth v w i) (_trace_value rt d1 v w i))
    by exact IH.
  clearbody d1. clear IH.
  destruct v; cbn [_trace_value];
    try apply IH';
    repeat first
      [ apply settles_refl
      | apply settles_tbind; [solve [apply IH' | apply settles_refl] | intros ?]
      | apply settles_tbind; [apply settles_tmap; intros ? _ | intros ?] ];
    try apply IH'.
  destruct a; try apply settles_refl;
    (apply settles_tbind; [apply IH' | intros; apply settles_refl]).
Qed.

Lemma trace_value_settles_le d d' v wrap_str include_id r :
  (d <= d')%nat ->
  _trace_value rt d v wrap_str include_id = Some r ->
  _trace_value rt d' v wrap_str include_id = Some r.
Proof.
  induction 1 as [|d' _ IH]; [done|].
  intros H. by apply trace_value_settles, IH.
Qed.



End DepthFacts.

(** * Instances made by the wrapped constructor *)

Section InstanceFacts.
Context (rt : Runtime) (recursion_limit : nat).

(** X16.  An instance made by calling a decorated class carries what
    [fe_state] and [fe_summary] rely on, whenever the original constructor
    leaves the three attributes of the wrapper alone: the whitelist of the
    decoration, its blacklist followed by the two names of the lists, and a
    summary which is a string. *)
Theorem constructed_instance_is_configured cls whitelist blacklist args kwargs self' n :
  (forall s a k s' n', __init__ cls s a k = Some (Ok s', n') ->
     forall nm, nm ∈ "_fe_traceability_summary" :: bookkeeping ->
                assoc nm (__dict__ s') = assoc nm (__dict__ s)) ->
  construct (make_traceable rt recursion_limit whitelist blacklist cls) args kwargs
    = Some (Ok self', n) ->
  configured whitelist blacklist self' /\
  exists summary, assoc "_fe_traceability_summary" (__dict__ self') = Some (VStr summary).
Proof.
  intros Hbase. unfold construct. cbn [__init__ make_traceable class_modname class_qualname class_id].
  unfold init. intros Hrun.
  apply tbind_ok in Hrun as (s1 & n1 & n2 & Hp & Hrun & _).
  assert (Hc : configured whitelist blacklist s1).
  { eapply prologue_configures; [| |exact Hp]; reflexivity. }
  destruct (init_prologue_caches rt recursion_limit _ _ _ _ _ _ _ _
              (eq_refl : hasattr (Instance _ _ _ []) "_fe_traceability_summary" = false) Hp)
    as (summary & Hs).
  pose proof (Hbase _ _ _ _ _ Hrun) as Hkeep.
  destruct Hc as [Hw Hb]. split; [split|].
  - rewrite Hkeep; [done|]. unfold bookkeeping. rewrite !elem_of_cons. tauto.
  - rewrite Hkeep; [done|]. unfold bookkeeping. rewrite !elem_of_cons. tauto.
  - exists summary. rewrite Hkeep; [done|]. rewrite !elem_of_cons. tauto.
Qed.

(** X17.  For a class decorated with a blacklist (or with neither list,
    when the class has no [fe_state] of its own), [fe_state] of a configured
    instance does not raise and returns the attributes of the instance
    without those named by the blacklist and without
    [_fe_state_whitelist] and [_fe_state_blacklist], each with the value
    the instance has. *)
Theorem fe_state_omits_blacklist cls blacklist self :
  fe_state_method cls = None \/ blacklist <> [] ->
  configured [] blacklist self ->
  exists state,
    call_fe_state (make_traceable rt recursion_limit [] blacklist cls) self = Ok state /\
    forall k, assoc k state =
              if bool_decide (k ∈ blacklist ++ bookkeeping) then None
              else assoc k (__dict__ self).
Proof.
  intros Hown Hc. unfold call_fe_state. cbn [fe_state_method make_traceable nonempty orb].
  assert (match fe_state_method cls with
          | Some base_func => if nonempty blacklist then Some (fe_state rt []) else Some base_func
          | None => Some (fe_state rt [])
          end = Some (fe_state rt [])) as ->.
  { destruct (fe_state_method cls); [|done].
    destruct Hown as [|Hne]; [done|]. by destruct blacklist. }
  by apply fe_state_removes_blacklist.
Qed.

End InstanceFacts.

(** * Lambdas over expressions *)

Section LambdaFacts.
Context (rt : Runtime).

(** X18.  The description of a lambda whose body is such an expression:
    "a lambda function passing ", the names of its parameters, each between
    single quotes and joined by a comma and a space ("no arguments" when
    it has none), " to: ", and the description of the model of the body,
    after one call of [_parse_instructions] more than the body needs.  A
    body which is the constant [None] is the exception: its model is
    [None], which [_trace_value] takes for a failed reconstruction, so that
    such a lambda is described by its parameters only. *)
Theorem lambda_description depth var_names e a tail closure wrap_str include_id :
  _trace_value rt (S depth)
    (VLambda var_names (compile e ++ Instruction "RETURN_VALUE" a :: tail) closure)
    wrap_str include_id =
  match denote e with
  | VNone =>
      Some (Ok ("a lambda function passing " +:+
                match var_names with
                | [] => "no arguments"
                | _ => String.concat ", " (map (fun x => "'" +:+ x +:+ "'") var_names)
                end), 1%nat)
  | body =>
      match _trace_value rt depth body wrap_str include_id with
      | Some (Ok s, n) =>
          Some (Ok ("a lambda function passing " +:+
                    match var_names with
                    | [] => "no arguments"
                    | _ => String.concat ", " (map (fun x => "'" +:+ x +:+ "'") var_names)
                    end +:+ " to: " +:+ s), S n)
      | Some (Raise e, n) => Some (Raise e, S n)
      | None => None
      end
  end.
Proof.
  rewrite <- describe_params_text.
  cbn [_trace_value]. rewrite parse_compiled. unfold reconstruct. cbn [tbind].
  destruct (denote e); try reflexivity;
    match goal with
    | |- context [_trace_value rt depth ?v wrap_str include_id] =>
        destruct (_trace_value rt depth v wrap_str include_id) as [[[s'|e'] n']|]
    end; cbn [tbind tret]; rewrite ?Nat.add_0_r; reflexivity.
Qed.

End LambdaFacts.

(** * Instances of the further properties *)

Lemma lambda_free_never_reconstructs_witness :
  match _trace_value simple_runtime 3 (VList [VInt 1; VStr "a"]) true true with
  | Some (_, n) => n = 0%nat
  | None => True
  end.
Proof.
  apply (lambda_free_never_reconstructs simple_runtime 3 (VList [VInt 1; VStr "a"]) true true).
  reflexivity.
Defined.

(** The whitelist stored by the wrapper entered first stays. *)
Lemma init_prologue_keeps_attributes_witness :
  (forall name v, assoc name (__dict__ entered_widget) = Some v ->
                  assoc name (__dict__ (prepared_widget ["count"] [])) = Some v) /\
  (forall name, name <> "_fe_state_whitelist" -> name <> "_fe_state_blacklist" ->
                name <> "_fe_traceability_summary" ->
                assoc name (__dict__ (prepared_widget ["count"] [])) =
                assoc name (__dict__ entered_widget)) /\
  cls_modname (prepared_widget ["count"] []) = cls_modname entered_widget /\
  cls_qualname (prepared_widget ["count"] []) = cls_qualname entered_widget /\
  cls_id (prepared_widget ["count"] []) = cls_id entered_widget.
Proof.
  apply (init_prologue_keeps_attributes simple_runtime 10 ["name"] [] (Widget_init "__main__")
           entered_widget [] widget_kwargs (prepared_widget ["count"] []) 0).
  vm_compute. reflexivity.
Defined.

Lemma init_prologue_configures_witness :
  configured ["name"] ["secret"] (prepared_widget ["name"] ["secret"]).
Proof.
  apply (init_prologue_configures simple_runtime 10 ["name"] ["secret"] (Widget_init "__main__")
           new_widget [] widget_kwargs (prepared_widget ["name"] ["secret"]) 0).
  - reflexivity.
  - reflexivity.
  - vm_compute. reflexivity.
Defined.


Lemma init_prologue_needs_self_witness :
  exists e,
    init_prologue simple_runtime 10 [] [] Odd_init new_widget [VStr "w"] []
      = Some (Raise e, 0%nat) /\
    (e = KeyError "self" \/
     exists self0, rt_signature_bind simple_runtime Odd_init (VObject self0 :: [VStr "w"])
                     (map (fun kv => (VStr (fst kv), snd kv)) []) = Raise e).
Proof.
  apply (init_prologue_needs_self simple_runtime 10 [] [] Odd_init new_widget [VStr "w"] []).
  - reflexivity.
  - intros self0 bound Hbound. vm_compute in Hbound.
    injection Hbound as <-. reflexivity.
Defined.

Lemma Counter_init_keeps_bookkeeping s a k s' n' :
  __init__ Counter s a k = Some (Ok s', n') ->
  forall nm, nm ∈ bookkeeping -> assoc nm (__dict__ s') = assoc nm (__dict__ s).
Proof.
  intros [= <- _] nm Hnm. apply getattr_setattr_ne.
  unfold bookkeeping in Hnm. rewrite !elem_of_cons, elem_of_nil in Hnm.
  intros ->. intuition discriminate.
Qed.

(** The state of an instance of [Derived] holds its summary, outside the
    whitelist of [Counter]. *)
Lemma inherited_whitelist_is_not_applied_witness :
  exists state,
    call_fe_state Derived
      (Instance "__main__" "Derived" 94400
         [ ("_fe_state_whitelist", str_tuple []);
           ("_fe_state_blacklist", str_tuple bookkeeping);
           ("_fe_traceability_summary",
            VStr "an instance of __main__.Derived invoked with: {args=(), kwargs={}}");
           ("count", VInt 0) ]) = Ok state /\
    forall k, assoc k state =
              if bool_decide (k ∈ bookkeeping) then None
              else assoc k (__dict__
                     (Instance "__main__" "Derived" 94400
                        [ ("_fe_state_whitelist", str_tuple []);
                          ("_fe_state_blacklist", str_tuple bookkeeping);
                          ("_fe_traceability_summary",
                           VStr "an instance of __main__.Derived invoked with: {args=(), kwargs={}}");
                          ("count", VInt 0) ])).
Proof.
  apply (inherited_whitelist_is_not_applied simple_runtime 10 Counter ["count"]
           "__main__" "Derived" 94400 [] []
           (Instance "__main__" "Derived" 94400
              [ ("_fe_state_whitelist", str_tuple []);
                ("_fe_state_blacklist", str_tuple bookkeeping);
                ("_fe_traceability_summary",
                 VStr "an instance of __main__.Derived invoked with: {args=(), kwargs={}}");
                ("count", VInt 0) ]) 0).
  - discriminate.
  - apply Counter_init_keeps_bookkeeping.
  - vm_compute. reflexivity.
Defined.

Lemma load_deref_pushes_resolved_witness :
  step simple_runtime no_scope (Instruction "LOAD_DEREF" (VStr "x")) (Machine deref_stream [] [] 0) =
    (let! function := lift (resolve simple_runtime no_scope (VStr "x")) in
     let! function' := look_ahead simple_runtime function in
     args_append function' >> ret Next) (Machine deref_stream [] [] 0).
Proof.
  apply (load_deref_pushes_resolved simple_runtime no_scope
           (Instruction "LOAD_DEREF" (VStr "x")) (Machine deref_stream [] [] 0)).
  - reflexivity.
  - vm_compute. reflexivity.
  - simpl. lia.
  - simpl. lia.
Defined.

(** The stream of [lambda x, y: x if x > y else y]. *)
Lemma conditional_round_trip_witness :
  _parse_instructions simple_runtime no_scope ternary_stream =
    Some (Ok (VCondition (VVarWrap (VStr "x")) (VVarWrap (VStr "y"))
                (VCommand (VVarWrap (VStr "x")) (VVarWrap (VStr "y")) ">"))).
Proof.
  apply (conditional_round_trip simple_runtime no_scope
           (Operation GT (Local "x") (Local "y")) (Local "x") (Local "y") (VInt 8)).
  discriminate.
Defined.

(** The stream of [lambda x: foo.bar(1, x)]. *)
Lemma call_round_trip_witness :
  _parse_instructions simple_runtime foo_scope
    (compile_call "foo" ["bar"] [Const (VInt 1); Local "x"] ++
     Instruction "RETURN_VALUE" VNone :: [])
    = Some (Ok (VBoundFn foo_bar
                  (VBoundArguments [("a", VInt 1); ("k", VVarWrap (VStr "x"))]))).
Proof.
  apply (call_round_trip simple_runtime foo_scope "foo" ["bar"] [Const (VInt 1); Local "x"]
           VNone []
           (VObject (Instance "builtins" "module" 9800 [("bar", foo_bar)])) foo_bar
           [("a", VInt 1); ("k", VVarWrap (VStr "x"))]).
  - vm_compute. reflexivity.
  - vm_compute. reflexivity.
  - vm_compute. reflexivity.
Defined.

(** The walk over [lambda x, y: x if x > y else y] after its first pass. *)
Lemma walk_invariant_witness :
  Z.of_nat (length (args (Machine ternary_stream [] [VVarWrap (VStr "x")] 1)) +
            length (conditions (Machine ternary_stream [] [VVarWrap (VStr "x")] 1)))
    <= idx (Machine ternary_stream [] [VVarWrap (VStr "x")] 1) /\
  idx (Machine ternary_stream [] [VVarWrap (VStr "x")] 1)
    <= Z.of_nat (length (instructions (Machine ternary_stream [] [VVarWrap (VStr "x")] 1))) /\
  (length (instructions (Machine ternary_stream [] [VVarWrap (VStr "x")] 1))
     <= length ternary_stream)%nat.
Proof.
  apply (walk_invariant simple_runtime no_scope ternary_stream
           (Machine ternary_stream [] [VVarWrap (VStr "x")] 1)).
  eapply reaches_pass; [vm_compute; reflexivity | apply reaches_here].
Defined.

(** The operator without operands. *)
Lemma parse_errors_by_origin_witness :
  walk_error simple_runtime (IndexError "pop from empty list").
Proof.
  apply (parse_errors_by_origin simple_runtime no_scope [Instruction "BINARY_ADD" VNone]).
  vm_compute. reflexivity.
Defined.


Lemma Counter_init_keeps_wrapper_attributes s a k s' n' :
  __init__ Counter s a k = Some (Ok s', n') ->
  forall nm, nm ∈ "_fe_traceability_summary" :: bookkeeping ->
             assoc nm (__dict__ s') = assoc nm (__dict__ s).
Proof.
  intros [= <- _] nm Hnm. apply getattr_setattr_ne.
  unfold bookkeeping in Hnm. rewrite !elem_of_cons, elem_of_nil in Hnm.
  intros ->. intuition discriminate.
Qed.

Lemma constructed_instance_is_configured_witness :
  configured ["count"] [] (counter ["count"] []) /\
  exists summary,
    assoc "_fe_traceability_summary" (__dict__ (counter ["count"] [])) = Some (VStr summary).
Proof.
  apply (constructed_instance_is_configured simple_runtime 10 Counter ["count"] [] [] []
           (counter ["count"] []) 0).
  - apply Counter_init_keeps_wrapper_attributes.
  - vm_compute. reflexivity.
Defined.

Lemma fe_state_omits_blacklist_witness :
  exists state,
    call_fe_state (make_traceable simple_runtime 10 [] ["count"] Counter) (counter [] ["count"])
      = Ok state /\
    forall k, assoc k state =
              if bool_decide (k ∈ ["count"] ++ bookkeeping) then None
              else assoc k (__dict__ (counter [] ["count"])).
Proof.
  apply (fe_state_omits_blacklist simple_runtime 10 Counter ["count"] (counter [] ["count"])).
  - left. reflexivity.
  - split; reflexivity.
Defined.

(** [lambda x: x.foo(1)] where [foo] is no name of the scope. *)
Lemma method_call_on_parameter_raises_witness :
  _parse_instructions simple_runtime no_scope method_call_stream =
    Some (Raise (TypeError "is not a callable object")) /\
  _trace_value simple_runtime 1 (VLambda ["x"] method_call_stream no_scope) true true =
    Some (Raise (TypeError "is not a callable object"), 1%nat).
Proof.
  apply (method_call_on_parameter_raises simple_runtime no_scope
           (TypeError "is not a callable object") ["x"] 0 true true).
  - vm_compute. reflexivity.
  - vm_compute. reflexivity.
Defined.

(** The construction of a traced object given this lambda is aborted. *)
Example widget_with_method_lambda_is_not_constructed :
  construct (make_traceable simple_runtime 10 [] [] (Widget "__main__")) []
    [("name", VLambda ["x"] method_call_stream no_scope); ("count", VInt 3)] =
  Some (Raise (TypeError "is not a callable object"), 1%nat).
Proof. vm_compute. reflexivity. Qed.

(** [lambda x, y: x + y * 2] and [lambda: None]. *)
Lemma lambda_description_witness :
  _trace_value simple_runtime 4
    (VLambda ["x"; "y"]
       (compile (Operation ADD (Local "x") (Operation MULTIPLY (Local "y") (Const (VInt 2)))) ++
        Instruction "RETURN_VALUE" VNone :: []) no_scope) true true =
    Some (Ok "a lambda function passing 'x', 'y' to: x + y * 2", 1%nat) /\
  _trace_value simple_runtime 4
    (VLambda [] (compile (Const VNone) ++ Instruction "RETURN_VALUE" VNone :: []) no_scope)
    true true =
    Some (Ok "a lambda function passing no arguments", 1%nat).
Proof.
  split.
  - exact (lambda_description simple_runtime 3 ["x"; "y"]
             (Operation ADD (Local "x") (Operation MULTIPLY (Local "y") (Const (VInt 2))))
             VNone [] no_scope true true).
  - exact (lambda_description simple_runtime 3 [] (Const VNone) VNone [] no_scope true true).
Defined.

(** [Derived(name="w", count=3)] for [class Derived(Widget): pass] decorated
    with [@traceable()], where [Widget] is decorated with the whitelist
    [("name",)]: the arguments are bound to [*args] and [**kwargs] of the
    wrapper of [Widget], and the state is not restricted to [name]. *)
Example derived_widget_state :
  match construct
          (make_traceable simple_runtime 10 [] []
             (subclass (make_traceable simple_runtime 10 ["name"] [] (Widget "__main__"))
                "__main__" "Derived" 94400))
          [] [("name", VStr "w"); ("count", VInt 3)] with
  | Some (Ok self, _) =>
      Some (call_fe_state
              (make_traceable simple_runtime 10 [] []
                 (subclass (make_traceable simple_runtime 10 ["name"] [] (Widget "__main__"))
                    "__main__" "Derived" 94400)) self)
  | _ => None
  end =
  Some (Ok [ ("_fe_traceability_summary",
              VStr "an instance of __main__.Derived invoked with: {args=(), kwargs={'name'='w', 'count'=3}}");
             ("name", VStr "w"); ("count", VInt 3) ]).
Proof. vm_compute. reflexivity. Qed.

(** [lambda: {3, 1, 2}]: the set is described in the order of its hash
    table. *)
Example set_display_description :
  _trace_value simple_runtime 5
    (VLambda []
       [ Instruction "LOAD_CONST" (VInt 3); Instruction "LOAD_CONST" (VInt 1);
         Instruction "LOAD_CONST" (VInt 2); Instruction "BUILD_SET" (VInt 3);
         Instruction "RETURN_VALUE" VNone ] no_scope) true true =
    Some (Ok "a lambda function passing no arguments to: {1, 2, 3}", 1%nat).
Proof. vm_compute. reflexivity. Qed.
